(** * components::impl::ComponentInfo — the per-component lifecycle cell

    Shallow embedding of [component_context_component_info.cpp] (kept in this
    repository inside [core/include/userver/tracing/tracer.hpp], after the
    tracer header) and the properties of it that the lifecycle specification
    states.

    Every member function is written once, as a small program whose steps are
    the critical sections of the C++ body (one [Atomic] per [lock_guard]
    scope, per atomic operation and per call made outside the lock).  The same
    program is then given two semantics:
    - [run], which executes the steps back to back (one caller, nobody else
      touching the cell), and
    - [step], which interleaves the steps of any number of callers.

    The file also embeds [MongoCache::Update] of [cache/base_mongo_cache.hpp]
    (module [MongoCache]) and states what an update does to the published
    map and to the statistics. *)

From stdpp Require Import base gmap strings list.

Set Default Proof Using "Type".
Open Scope string_scope.
Open Scope list_scope.
Open Scope nat_scope.

(** ** Components and what their hooks may do *)

(** What a virtual hook of a component does when it is called: it returns, or
    it throws.  The [catch (const std::exception&)] clauses of the source tell
    exceptions derived from [std::exception] (which carry [what()]) from any
    other thrown object. *)
Inductive Thrown :=
| StdException (what : string)
| NonStdException.

Inductive HookOutcome :=
| HookReturns
| HookThrows (t : Thrown).

(** [ComponentBase]: the instance a cell owns.  [comp_id] tells instances
    apart; the three other fields are the behaviour of its virtual hooks. *)
Record ComponentBase := {
  comp_id : nat;
  cb_OnLoadingCancelled : HookOutcome;
  cb_OnAllComponentsLoaded : HookOutcome;
  cb_OnAllComponentsAreStopping : HookOutcome
}.

(** Modelled from the spec: the declaration of [enum class
    ComponentLifetimeStage] is in the missing header; the source names only
    [kCreated].  The specification (4.2) fixes the order Unborn, Constructed,
    Running, NotifiedPeersStopping, Torn-down. *)
Inductive ComponentLifetimeStage :=
| kUnborn
| kCreated
| kRunning
| kNotifiedPeersStopping
| kTornDown.

#[global] Instance ComponentLifetimeStage_eq_dec : EqDecision ComponentLifetimeStage.
Proof. solve_decision. Defined.

Definition stage_index (s : ComponentLifetimeStage) : nat :=
  match s with
  | kUnborn => 0
  | kCreated => 1
  | kRunning => 2
  | kNotifiedPeersStopping => 3
  | kTornDown => 4
  end.

(** ** The cell *)

(** Modelled from the spec: the class declaration is in the missing header
    [component_context_component_info.hpp]; the members are the ones the
    member functions below read and write ([mutex_] and [cv_] are the
    execution model, not data). *)
Record ComponentInfo := {
  name_ : string;
  component_ : option ComponentBase;         (* std::unique_ptr<ComponentBase> *)
  stage_ : ComponentLifetimeStage;
  stage_switching_cancelled_ : bool;
  on_loading_cancelled_called_ : bool;       (* std::atomic<bool> *)
  it_depends_on_ : gset string;
  depends_on_it_ : gset string
}.

Definition set_component_ (p : option ComponentBase) (c : ComponentInfo) : ComponentInfo :=
  {| name_ := name_ c; component_ := p; stage_ := stage_ c;
     stage_switching_cancelled_ := stage_switching_cancelled_ c;
     on_loading_cancelled_called_ := on_loading_cancelled_called_ c;
     it_depends_on_ := it_depends_on_ c; depends_on_it_ := depends_on_it_ c |}.

Definition set_stage_ (s : ComponentLifetimeStage) (c : ComponentInfo) : ComponentInfo :=
  {| name_ := name_ c; component_ := component_ c; stage_ := s;
     stage_switching_cancelled_ := stage_switching_cancelled_ c;
     on_loading_cancelled_called_ := on_loading_cancelled_called_ c;
     it_depends_on_ := it_depends_on_ c; depends_on_it_ := depends_on_it_ c |}.

Definition set_stage_switching_cancelled_ (b : bool) (c : ComponentInfo) : ComponentInfo :=
  {| name_ := name_ c; component_ := component_ c; stage_ := stage_ c;
     stage_switching_cancelled_ := b;
     on_loading_cancelled_called_ := on_loading_cancelled_called_ c;
     it_depends_on_ := it_depends_on_ c; depends_on_it_ := depends_on_it_ c |}.

Definition set_on_loading_cancelled_called_ (b : bool) (c : ComponentInfo) : ComponentInfo :=
  {| name_ := name_ c; component_ := component_ c; stage_ := stage_ c;
     stage_switching_cancelled_ := stage_switching_cancelled_ c;
     on_loading_cancelled_called_ := b;
     it_depends_on_ := it_depends_on_ c; depends_on_it_ := depends_on_it_ c |}.

Definition set_it_depends_on_ (s : gset string) (c : ComponentInfo) : ComponentInfo :=
  {| name_ := name_ c; component_ := component_ c; stage_ := stage_ c;
     stage_switching_cancelled_ := stage_switching_cancelled_ c;
     on_loading_cancelled_called_ := on_loading_cancelled_called_ c;
     it_depends_on_ := s; depends_on_it_ := depends_on_it_ c |}.

Definition set_depends_on_it_ (s : gset string) (c : ComponentInfo) : ComponentInfo :=
  {| name_ := name_ c; component_ := component_ c; stage_ := stage_ c;
     stage_switching_cancelled_ := stage_switching_cancelled_ c;
     on_loading_cancelled_called_ := on_loading_cancelled_called_ c;
     it_depends_on_ := it_depends_on_ c; depends_on_it_ := s |}.

(** [ComponentInfo::ComponentInfo(std::string name)].  Modelled from the spec:
    the default member initialisers are in the missing header; a cell is
    created empty, in the first stage, with nothing cancelled or fired. *)
Definition ComponentInfo_new (name : string) : ComponentInfo :=
  {| name_ := name; component_ := None; stage_ := kUnborn;
     stage_switching_cancelled_ := false;
     on_loading_cancelled_called_ := false;
     it_depends_on_ := ∅; depends_on_it_ := ∅ |}.

(** ** Exceptions, observable events, results *)

Inductive Exception :=
| ComponentsLoadCancelledException
| StageSwitchingCancelledException (message : string)
| runtime_error (message : string)
| Propagated (t : Thrown).              (* thrown by a hook, not caught here *)

Inductive Event :=
| EvOnLoadingCancelled (x : ComponentBase)          (* component_->OnLoadingCancelled() *)
| EvOnAllComponentsLoaded (x : ComponentBase)       (* component_->OnAllComponentsLoaded() *)
| EvOnAllComponentsAreStopping (x : ComponentBase)  (* component_->OnAllComponentsAreStopping() *)
| EvDestroyed (x : ComponentBase)                   (* ~ComponentBase, by a unique_ptr *)
| EvNotifyAll                                       (* cv_.NotifyAll() *)
| EvLogInfo (message : string)
| EvLogError (message : string)
| EvLogErrorException (message : string) (ex : Thrown).
                               (* LOG_ERROR() << message << ex: the text, then
                                  the exception object itself, handed to the
                                  logging library's operator<< *)

Inductive Result (A : Type) :=
| Returned (a : A)
| Threw (e : Exception)
| Blocked                 (* the caller is still inside cv_.Wait *)
| UndefinedBehaviour.     (* a call through a null component_ *)
Arguments Returned {A} a.
Arguments Threw {A} e.
Arguments Blocked {A}.
Arguments UndefinedBehaviour {A}.

(** ** Programs over the cell *)

(** One indivisible step on the cell: [None] when the step cannot be taken in
    this state (a wait whose predicate is false), otherwise the value it
    yields, the cell it leaves and the events it emits. *)
Definition Action (B : Type) : Type :=
  ComponentInfo -> option (B * ComponentInfo * list Event).

Inductive Prog (A : Type) : Type :=
| Ret (a : A)
| Throw (e : Exception)
| Undefined
| Atomic (B : Type) (act : Action B) (k : B -> Prog A).
Arguments Ret {A} a.
Arguments Throw {A} e.
Arguments Undefined {A}.
Arguments Atomic {A B} act k.

Fixpoint bind {A B : Type} (p : Prog A) (f : A -> Prog B) : Prog B :=
  match p with
  | Ret a => f a
  | Throw e => Throw e
  | Undefined => Undefined
  | Atomic act k => Atomic act (fun b => bind (k b) f)
  end.

Notation "x <- p ;; q" := (bind p (fun x => q))
  (at level 100, p at next level, right associativity).
Notation "p ;;; q" := (bind p (fun _ => q))
  (at level 100, right associativity).

(** Sequential execution: the steps of one call, with nothing in between. *)
Fixpoint run {A : Type} (p : Prog A) (c : ComponentInfo)
  : Result A * ComponentInfo * list Event :=
  match p with
  | Ret a => (Returned a, c, [])
  | Throw e => (Threw e, c, [])
  | Undefined => (UndefinedBehaviour, c, [])
  | Atomic act k =>
      match act c with
      | None => (Blocked, c, [])
      | Some (b, c', t) =>
          let '(r, c'', t') := run (k b) c' in (r, c'', t ++ t')
      end
  end.

Definition result_of {A} (o : Result A * ComponentInfo * list Event) : Result A := o.1.1.
Definition cell_of {A} (o : Result A * ComponentInfo * list Event) : ComponentInfo := o.1.2.
Definition trace_of {A} (o : Result A * ComponentInfo * list Event) : list Event := o.2.

(** A [std::lock_guard] scope that reads the cell. *)
Definition locked_read {B} (f : ComponentInfo -> B) : Prog B :=
  Atomic (fun c => Some (f c, c, [])) Ret.

(** A [std::lock_guard] scope that updates the cell. *)
Definition locked_update (f : ComponentInfo -> ComponentInfo) : Prog unit :=
  Atomic (fun c => Some (tt, f c, [])) Ret.

Definition emit (e : Event) : Prog unit :=
  Atomic (fun c => Some (tt, c, [e])) Ret.

Definition NotifyAll : Prog unit := emit EvNotifyAll.
Definition LOG_INFO (m : string) : Prog unit := emit (EvLogInfo m).
Definition LOG_ERROR (m : string) : Prog unit := emit (EvLogError m).

(** The events of a [unique_ptr] giving up what it owns. *)
Definition destroy (p : option ComponentBase) : list Event :=
  match p with
  | Some x => [EvDestroyed x]
  | None => []
  end.

(** [component_->Hook()], made outside the lock: reads [component_] and calls
    through it.  Yields [None] when the pointer is null. *)
Definition call_through_component_ (ev : ComponentBase -> Event)
    (hook : ComponentBase -> HookOutcome) : Prog (option HookOutcome) :=
  Atomic (fun c =>
            match component_ c with
            | Some x => Some (Some (hook x), c, [ev x])
            | None => Some (None, c, [])
            end) Ret.

(** Modelled from the spec: [engine::ConditionVariable::Wait(lock, pred)] is
    not in src.  It blocks until the predicate holds and re-checks it after
    every wake-up; it yields [true] when the predicate holds, and [false] when
    the wait was given up ([interrupted]: the waiting task was itself
    cancelled) with the predicate still false.  [None]: still waiting. *)
Definition cv_Wait (interrupted : bool) (pred : bool) : option bool :=
  if pred then Some true else if interrupted then Some false else None.

(** ** The member functions (callees before their callers) *)

Definition HasComponent : Prog bool :=
  locked_read (fun c => bool_decide (is_Some (component_ c))).

Definition OnLoadingCancelled : Prog unit :=
  has <- HasComponent ;;
  if negb has then Ret tt else
  called <- Atomic (fun c => Some (on_loading_cancelled_called_ c,
                                   set_on_loading_cancelled_called_ true c, [])) Ret ;;
  if (called : bool) then Ret tt else
  o <- call_through_component_ EvOnLoadingCancelled cb_OnLoadingCancelled ;;
  match o with
  | None => Undefined
  | Some HookReturns => Ret tt
  | Some (HookThrows t) => Throw (Propagated t)
  end.

Definition SetComponent (component : option ComponentBase) : Prog unit :=
  call_on_loading_cancelled <-
    Atomic (fun c => Some (stage_switching_cancelled_ c,
                           set_stage_ kCreated (set_component_ component c),
                           destroy (component_ c))) Ret ;;
  (if (call_on_loading_cancelled : bool) then OnLoadingCancelled else Ret tt) ;;;
  NotifyAll.

Definition ExtractComponent : Prog (option ComponentBase) :=
  Atomic (fun c => Some (component_ c, set_component_ None c, [])) Ret.

(** The [tracing::Span] around the stop and its tag are instrumentation and
    leave no mark on the cell. *)
Definition ClearComponent : Prog unit :=
  has <- HasComponent ;;
  if negb has then Ret tt else
  component <- ExtractComponent ;;
  LOG_INFO "Stopping component" ;;;
  Atomic (fun c => Some (tt, c, destroy component)) Ret ;;;
  LOG_INFO "Stopped component".

Definition GetComponent : Prog (option ComponentBase) :=
  locked_read component_.

Definition WaitAndGetComponent (interrupted : bool) : Prog (option ComponentBase) :=
  r <- Atomic (fun c =>
         match cv_Wait interrupted
                 (stage_switching_cancelled_ c || bool_decide (component_ c ≠ None)) with
         | Some ok => Some ((ok, stage_switching_cancelled_ c, component_ c), c, [])
         | None => None
         end) Ret ;;
  let '(ok, cancelled, p) := r in
  if negb ok || cancelled then Throw ComponentsLoadCancelledException else Ret p.

Definition AddItDependsOn (component : string) : Prog unit :=
  locked_update (fun c => set_it_depends_on_ ({[component]} ∪ it_depends_on_ c) c).

Definition AddDependsOnIt (component : string) : Prog unit :=
  locked_update (fun c => set_depends_on_it_ ({[component]} ∪ depends_on_it_ c) c).

Definition CheckItDependsOn (component : string) : Prog bool :=
  locked_read (fun c => bool_decide (component ∈ it_depends_on_ c)).

Definition CheckDependsOnIt (component : string) : Prog bool :=
  locked_read (fun c => bool_decide (component ∈ depends_on_it_ c)).

Definition SetStageSwitchingCancelled (cancelled : bool) : Prog unit :=
  locked_update (set_stage_switching_cancelled_ cancelled) ;;;
  NotifyAll.

Definition OnAllComponentsLoaded : Prog unit :=
  has <- HasComponent ;;
  if negb has then Ret tt else
  o <- call_through_component_ EvOnAllComponentsLoaded cb_OnAllComponentsLoaded ;;
  match o with
  | None => Undefined
  | Some HookReturns => Ret tt
  | Some (HookThrows (StdException what)) =>
      name <- Atomic (fun c => Some (name_ c, c, [])) Ret ;;
      let message := "OnAllComponentsLoaded() failed for component " +:+ name +:+ ": " +:+ what in
      LOG_ERROR message ;;;
      Throw (runtime_error message)
  | Some (HookThrows NonStdException) => Throw (Propagated NonStdException)
  end.

(** The handler streams the exception object itself into the log
    ([<< ex]); how the logging library prints it is not in src, so the event
    keeps the text and the object apart. *)
Definition OnAllComponentsAreStopping : Prog unit :=
  has <- HasComponent ;;
  if negb has then Ret tt else
  o <- call_through_component_ EvOnAllComponentsAreStopping cb_OnAllComponentsAreStopping ;;
  match o with
  | None => Undefined
  | Some HookReturns => Ret tt
  | Some (HookThrows (StdException what)) =>
      name <- Atomic (fun c => Some (name_ c, c, [])) Ret ;;
      emit (EvLogErrorException
              ("OnAllComponentsAreStopping() failed for component " +:+ name +:+ ": ")
              (StdException what))
  | Some (HookThrows NonStdException) => Throw (Propagated NonStdException)
  end.

Definition SetStage (stage : ComponentLifetimeStage) : Prog unit :=
  locked_update (set_stage_ stage) ;;;
  NotifyAll.

Definition GetStage : Prog ComponentLifetimeStage :=
  locked_read stage_.

Definition WaitStage (stage : ComponentLifetimeStage) (method_name : string)
    (interrupted : bool) : Prog unit :=
  r <- Atomic (fun c =>
         match cv_Wait interrupted
                 (stage_switching_cancelled_ c || bool_decide (stage_ c = stage)) with
         | Some ok => Some ((ok, stage_switching_cancelled_ c), c, [])
         | None => None
         end) Ret ;;
  let '(ok, cancelled) := r in
  if negb ok && cancelled
  then Throw (StageSwitchingCancelledException (method_name +:+ " cancelled"))
  else Ret tt.

(** ** The public interface as a type of calls *)

Inductive Value :=
| VUnit
| VBool (b : bool)
| VPtr (p : option ComponentBase)       (* ComponentBase*, nullptr is None *)
| VOwned (p : option ComponentBase)     (* std::unique_ptr<ComponentBase> *)
| VStage (s : ComponentLifetimeStage).

Inductive Op :=
| OpSetComponent (component : option ComponentBase)
| OpClearComponent
| OpGetComponent
| OpWaitAndGetComponent (interrupted : bool)
| OpAddItDependsOn (component : string)
| OpAddDependsOnIt (component : string)
| OpCheckItDependsOn (component : string)
| OpCheckDependsOnIt (component : string)
| OpSetStageSwitchingCancelled (cancelled : bool)
| OpOnLoadingCancelled
| OpOnAllComponentsLoaded
| OpOnAllComponentsAreStopping
| OpSetStage (stage : ComponentLifetimeStage)
| OpGetStage
| OpWaitStage (stage : ComponentLifetimeStage) (method_name : string) (interrupted : bool)
| OpHasComponent
| OpExtractComponent.

Definition body (op : Op) : Prog Value :=
  match op with
  | OpSetComponent x => SetComponent x ;;; Ret VUnit
  | OpClearComponent => ClearComponent ;;; Ret VUnit
  | OpGetComponent => p <- GetComponent ;; Ret (VPtr p)
  | OpWaitAndGetComponent i => p <- WaitAndGetComponent i ;; Ret (VPtr p)
  | OpAddItDependsOn s => AddItDependsOn s ;;; Ret VUnit
  | OpAddDependsOnIt s => AddDependsOnIt s ;;; Ret VUnit
  | OpCheckItDependsOn s => b <- CheckItDependsOn s ;; Ret (VBool b)
  | OpCheckDependsOnIt s => b <- CheckDependsOnIt s ;; Ret (VBool b)
  | OpSetStageSwitchingCancelled b => SetStageSwitchingCancelled b ;;; Ret VUnit
  | OpOnLoadingCancelled => OnLoadingCancelled ;;; Ret VUnit
  | OpOnAllComponentsLoaded => OnAllComponentsLoaded ;;; Ret VUnit
  | OpOnAllComponentsAreStopping => OnAllComponentsAreStopping ;;; Ret VUnit
  | OpSetStage s => SetStage s ;;; Ret VUnit
  | OpGetStage => s <- GetStage ;; Ret (VStage s)
  | OpWaitStage s m i => WaitStage s m i ;;; Ret VUnit
  | OpHasComponent => b <- HasComponent ;; Ret (VBool b)
  | OpExtractComponent => p <- ExtractComponent ;; Ret (VOwned p)
  end.

(** One call, executed with nobody else touching the cell. *)
Definition call (op : Op) (c : ComponentInfo) : Result Value * ComponentInfo * list Event :=
  run (body op) c.

(** A serial history: the calls one after the other, each on the cell the
    previous one left.  A call that blocks or throws leaves the cell as it was
    at that point, and the history goes on with the other callers' calls. *)
Fixpoint run_calls (ops : list Op) (c : ComponentInfo)
  : list (Result Value) * ComponentInfo * list Event :=
  match ops with
  | [] => ([], c, [])
  | op :: rest =>
      let '(r, c', t) := call op c in
      let '(rs, c'', t') := run_calls rest c' in
      (r :: rs, c'', t ++ t')
  end.

Definition results_of (o : list (Result Value) * ComponentInfo * list Event) := o.1.1.
Definition final_cell (o : list (Result Value) * ComponentInfo * list Event) := o.1.2.
Definition history_of (o : list (Result Value) * ComponentInfo * list Event) := o.2.

(** ** Interleaved execution *)

(** A thread makes its calls in sequence and collects what they return; an
    exception it does not catch ends it. *)
Fixpoint thread (ops : list Op) : Prog (list Value) :=
  match ops with
  | [] => Ret []
  | op :: rest => v <- body op ;; vs <- thread rest ;; Ret (v :: vs)
  end.

(** The next indivisible step of a thread, when it can take one. *)
Definition thread_step {A} (p : Prog A) (c : ComponentInfo)
  : option (Prog A * ComponentInfo * list Event) :=
  match p with
  | Atomic act k =>
      match act c with
      | Some (b, c', t) => Some (k b, c', t)
      | None => None
      end
  | _ => None
  end.

(** The threads, the cell they share, and the events so far. *)
Definition Config : Type := list (Prog (list Value)) * ComponentInfo * list Event.

Inductive step : Config -> Config -> Prop :=
| step_thread l1 p l2 c tr p' c' t :
    thread_step p c = Some (p', c', t) ->
    step (l1 ++ p :: l2, c, tr) (l1 ++ p' :: l2, c', tr ++ t).

Definition steps : Config -> Config -> Prop := rtc step.

(** A scheduler to run interleavings with: [step_at i] lets thread [i] take
    its next step (nothing happens when it has none to take), [schedule]
    follows a list of such choices. *)
Definition step_at (i : nat) (cfg : Config) : Config :=
  match cfg.1.1 !! i with
  | Some p =>
      match thread_step p cfg.1.2 with
      | Some (p', c', t) => (<[i := p']> cfg.1.1, c', cfg.2 ++ t)
      | None => cfg
      end
  | None => cfg
  end.

Definition schedule (choices : list nat) (cfg : Config) : Config :=
  foldl (λ cfg i, step_at i cfg) cfg choices.

(** ** Counting *)

Definition is_cancellation_hook (e : Event) : nat :=
  match e with
  | EvOnLoadingCancelled _ => 1
  | _ => 0
  end.

(** How many times [ComponentBase::OnLoadingCancelled] was invoked. *)
Definition hook_count (t : list Event) : nat := sum_list_with is_cancellation_hook t.

Definition is_nonempty (r : Result Value) : nat :=
  match r with
  | Returned (VOwned (Some _)) => 1
  | _ => 0
  end.

(** How many calls of a history handed out a component. *)
Definition nonempty_count (rs : list (Result Value)) : nat := sum_list_with is_nonempty rs.

Definition thread_got (p : Prog (list Value)) : nat :=
  match p with
  | Ret [VOwned (Some _)] => 1
  | _ => 0
  end.

(** How many of the threads, each making one [ExtractComponent] call, have
    returned with a component. *)
Definition got_count (pool : list (Prog (list Value))) : nat := sum_list_with thread_got pool.

(** ** Sample data *)

Definition X : ComponentBase :=
  {| comp_id := 1; cb_OnLoadingCancelled := HookReturns;
     cb_OnAllComponentsLoaded := HookReturns;
     cb_OnAllComponentsAreStopping := HookReturns |}.

Definition Y : ComponentBase :=
  {| comp_id := 2; cb_OnLoadingCancelled := HookReturns;
     cb_OnAllComponentsLoaded := HookThrows NonStdException;
     cb_OnAllComponentsAreStopping := HookReturns |}.

Definition race_threads : list (list Op) :=
  [[OpSetComponent (Some X)]; [OpSetStageSwitchingCancelled true; OpOnLoadingCancelled]].

Definition W : ComponentBase :=
  {| comp_id := 3; cb_OnLoadingCancelled := HookReturns;
     cb_OnAllComponentsLoaded := HookThrows (StdException "no route");
     cb_OnAllComponentsAreStopping := HookThrows (StdException "busy") |}.

(** ** Predicates used by the statements *)

(** The stage a call asks the cell to take: [SetStage] its argument,
    [SetComponent] always [kCreated]; no other call writes [stage_]. *)
Definition requested_stage (op : Op) : option ComponentLifetimeStage :=
  match op with
  | OpSetStage s => Some s
  | OpSetComponent _ => Some kCreated
  | _ => None
  end.

(** What [GetStage] observes after each call of a serial history. *)
Fixpoint observed_stages (ops : list Op) (c : ComponentInfo) : list ComponentLifetimeStage :=
  match ops with
  | [] => []
  | op :: rest =>
      let c' := cell_of (call op c) in
      stage_ c' :: observed_stages rest c'
  end.

(** The stages the calls ask for, each kept until the next request. *)
Fixpoint follow_requests (s : ComponentLifetimeStage) (ops : list Op) : list ComponentLifetimeStage :=
  match ops with
  | [] => []
  | op :: rest =>
      let s' := default s (requested_stage op) in
      s' :: follow_requests s' rest
  end.

(** [s'] is [s] or the stage right after it. *)
Definition forward (s s' : ComponentLifetimeStage) : Prop :=
  stage_index s ≤ stage_index s' ≤ S (stage_index s).

Fixpoint transitions_forward (s : ComponentLifetimeStage) (l : list ComponentLifetimeStage) : Prop :=
  match l with
  | [] => True
  | s' :: rest => forward s s' ∧ transitions_forward s' rest
  end.


Definition installs (op : Op) : bool :=
  match op with
  | OpSetComponent (Some _) => true
  | _ => false
  end.

(** [won c c'] is 1 when a step took [on_loading_cancelled_called_] from
    false to true: the step that wins the [exchange]. *)
Definition won (c c' : ComponentInfo) : nat :=
  if on_loading_cancelled_called_ c then 0
  else Nat.b2n (on_loading_cancelled_called_ c').

(** [guarded n p]: whatever the other threads do to the cell, [p] invokes the
    cancellation callback at most [n] times plus once for every [exchange] it
    wins, and never clears [on_loading_cancelled_called_]. *)
Fixpoint guarded {A} (n : nat) (p : Prog A) : Prop :=
  match p with
  | Atomic act k =>
      ∀ c b c' t, act c = Some (b, c', t) →
        (on_loading_cancelled_called_ c = true → on_loading_cancelled_called_ c' = true) ∧
        hook_count t ≤ n + won c c' ∧
        guarded (n + won c c' - hook_count t) (k b)
  | _ => True
  end.

(** The invariant of interleaved execution: the callbacks already made, plus
    those the threads are still entitled to, are covered by the flag. *)
Definition hook_invariant (cfg : Config) : Prop :=
  ∃ budgets : list nat,
    Forall2 guarded budgets cfg.1.1 ∧
    sum_list budgets + hook_count cfg.2 ≤ Nat.b2n (on_loading_cancelled_called_ cfg.1.2).

Definition held (c : ComponentInfo) : nat :=
  match component_ c with
  | Some _ => 1
  | None => 0
  end.

(** A thread that makes one [ExtractComponent] call on a cell that held [p0]
    at the start: not yet run, or returned with nothing, or returned with
    [p0]. *)
Definition extractor_state (p0 : option ComponentBase) (p : Prog (list Value)) : Prop :=
  p = thread [OpExtractComponent] ∨ p = Ret [VOwned None] ∨ p = Ret [VOwned p0].

(** A step that leaves the guard alone and makes no callback. *)
Definition quiet {B} (act : Action B) : Prop :=
  ∀ c b c' t, act c = Some (b, c', t) →
    on_loading_cancelled_called_ c' = on_loading_cancelled_called_ c ∧ hook_count t = 0.

(** The invariant of [n] threads racing to extract from a cell that held
    [p0]: what was handed out plus what is still held is what there was. *)
Definition extract_invariant (p0 : option ComponentBase) (cfg : Config) : Prop :=
  Forall (extractor_state p0) cfg.1.1 ∧
  got_count cfg.1.1 + held cfg.1.2 = match p0 with Some _ => 1 | None => 0 end ∧
  (component_ cfg.1.2 = None ∨ component_ cfg.1.2 = p0).

(** ** Further predicates: ownership, what never changes, null pointers *)

Definition is_destruction (e : Event) : nat :=
  match e with
  | EvDestroyed _ => 1
  | _ => 0
  end.

(** How many components were destroyed. *)
Definition destroyed_count (t : list Event) : nat := sum_list_with is_destruction t.

(** How many components a thread's calls hand to the cell. *)
Definition installs_count (ops : list Op) : nat :=
  sum_list_with (λ op, if installs op then 1 else 0) ops.

(** [owns n p]: [p] holds [n] components outside the cell (still to be
    installed, or taken out of the cell); a step destroys or puts into the
    cell only what the thread or the cell held before it. *)
Fixpoint owns {A} (n : nat) (p : Prog A) : Prop :=
  match p with
  | Atomic act k =>
      ∀ c b c' t, act c = Some (b, c', t) →
        destroyed_count t + held c' ≤ n + held c ∧
        owns (n + held c - held c' - destroyed_count t) (k b)
  | _ => True
  end.

(** Components are conserved: those destroyed, those in the cell and those
    in the hands of the threads are never more than [total]. *)
Definition ownership_invariant (total : nat) (cfg : Config) : Prop :=
  ∃ budgets : list nat,
    Forall2 owns budgets cfg.1.1 ∧
    sum_list budgets + destroyed_count cfg.2 + held cfg.1.2 ≤ total.

(** [respects R p]: every step of [p] takes the cell to an [R]-related one. *)
Fixpoint respects (R : relation ComponentInfo) {A} (p : Prog A) : Prop :=
  match p with
  | Atomic act k =>
      ∀ c b c' t, act c = Some (b, c', t) → R c c' ∧ respects R (k b)
  | _ => True
  end.

(** What no member function undoes: the name, the edges recorded so far, and
    the raised guard of the cancellation callback. *)
Definition only_grows (c c' : ComponentInfo) : Prop :=
  name_ c' = name_ c ∧
  it_depends_on_ c ⊆ it_depends_on_ c' ∧
  depends_on_it_ c ⊆ depends_on_it_ c' ∧
  (on_loading_cancelled_called_ c = true → on_loading_cancelled_called_ c' = true).

(** The calls that can leave the cell without a component. *)
Definition empties (op : Op) : bool :=
  match op with
  | OpExtractComponent | OpClearComponent | OpSetComponent None => true
  | _ => false
  end.

(** [never_null h p]: run from cells that hold a component whenever [h] is
    true, among threads that never empty the cell, [p] never calls through a
    null [component_], and never empties the cell itself. *)
Fixpoint never_null {A} (h : bool) (p : Prog A) : Prop :=
  match p with
  | Undefined => False
  | Atomic act k =>
      ∀ c b c' t, act c = Some (b, c', t) →
        (h = true → is_Some (component_ c)) →
        (is_Some (component_ c) → is_Some (component_ c')) ∧
        never_null (bool_decide (is_Some (component_ c'))) (k b)
  | _ => True
  end.

(** The names a history adds to each edge set. *)
Definition added_it_depends_on (ops : list Op) : list string :=
  omap (λ op, match op with OpAddItDependsOn s => Some s | _ => None end) ops.

Definition added_depends_on_it (ops : list Op) : list string :=
  omap (λ op, match op with OpAddDependsOnIt s => Some s | _ => None end) ops.

(** ** Predicates for [SetComponent] racing with [OnLoadingCancelled] *)

(** A thread that has returned, or was ended by an exception. *)
Definition finished {A} (p : Prog A) : bool :=
  match p with
  | Ret _ | Throw _ => true
  | _ => false
  end.

(** The cells of the race: cancellation is requested; the cell is still
    empty, or it holds [x] in stage [kCreated]; the guard is up only if a
    component is held. *)
Definition installed (x : ComponentBase) (c : ComponentInfo) : Prop :=
  stage_switching_cancelled_ c = true ∧
  (component_ c = None ∨ (component_ c = Some x ∧ stage_ c = kCreated)) ∧
  (on_loading_cancelled_called_ c = true → is_Some (component_ c)).

(** An event that, if it is a cancellation callback, is the one of [x]. *)
Definition on_instance (x : ComponentBase) (e : Event) : Prop :=
  is_cancellation_hook e = 1 → e = EvOnLoadingCancelled x.

(** [in_race x h r n p]: what a thread of the race still has to do.  It runs
    on [installed] cells, which hold a component whenever [h] is true, and it
    keeps them so; it never empties the cell, never lowers the guard, makes
    callbacks on [x] only; it has [n] callbacks to make before it finishes,
    plus one for every [exchange] it wins, and makes exactly those; and if
    [r] is true it does not finish before the guard is up. *)
Fixpoint in_race (x : ComponentBase) {A} (h r : bool) (n : nat) (p : Prog A) : Prop :=
  match p with
  | Ret _ | Throw _ => n = 0 ∧ r = false
  | Undefined => False
  | Atomic act k =>
      ∀ c b c' t, act c = Some (b, c', t) →
        installed x c → (h = true → is_Some (component_ c)) →
        installed x c' ∧
        (is_Some (component_ c) → is_Some (component_ c')) ∧
        (on_loading_cancelled_called_ c = true → on_loading_cancelled_called_ c' = true) ∧
        Forall (on_instance x) t ∧
        hook_count t ≤ n + won c c' ∧
        in_race x (bool_decide (is_Some (component_ c')))
                (r && negb (on_loading_cancelled_called_ c'))
                (n + won c c' - hook_count t) (k b)
  end.

(** The invariant of the race: the first thread is the [SetComponent] call;
    the callbacks made and those still owed are exactly what the guard
    accounts for; the first thread has finished only if the guard is up. *)
Definition race_invariant (x : ComponentBase) (cfg : Config) : Prop :=
  ∃ p0 rest (r : bool) (n0 : nat) (budgets : list nat),
    cfg.1.1 = p0 :: rest ∧
    in_race x (bool_decide (is_Some (component_ cfg.1.2))) r n0 p0 ∧
    Forall2 (in_race x (bool_decide (is_Some (component_ cfg.1.2))) false) budgets rest ∧
    n0 + sum_list budgets + hook_count cfg.2
      = Nat.b2n (on_loading_cancelled_called_ cfg.1.2) ∧
    (r = false → on_loading_cancelled_called_ cfg.1.2 = true) ∧
    installed x cfg.1.2 ∧
    Forall (on_instance x) cfg.2.

(** The member functions declared [const] in the source. *)
Definition is_const (op : Op) : bool :=
  match op with
  | OpGetComponent | OpWaitAndGetComponent _ | OpCheckItDependsOn _
  | OpCheckDependsOnIt _ | OpGetStage | OpWaitStage _ _ _ | OpHasComponent => true
  | _ => false
  end.

(** Those of them that wait on [cv_]. *)
Definition waits (op : Op) : bool :=
  match op with
  | OpWaitAndGetComponent _ | OpWaitStage _ _ _ => true
  | _ => false
  end.

(** * components::MongoCache

    [cache/base_mongo_cache.hpp]: the base of the caches that poll a mongo
    collection.  The class is a template over [MongoCacheTraits]; the traits
    are a record here.  What the class takes from its collaborators is kept
    as it is used: the collection is the function from a query to the
    documents its cursor yields, the statistics scope and the log are the
    calls made on them, in order, and [Get]/[Set] of the caching base read
    and replace the published map. *)
Module MongoCache.

(** [cache::UpdateType] *)
Inductive UpdateType :=
| kFull
| kIncremental.

Definition time_point : Type := Z.

(** The queries [GetQuery] builds: [sm::kEmptyObject], or the document
    [{field: {"$gt": last_update}}]. *)
Inductive DocumentValue :=
| kEmptyObject
| make_document_gt (field : string) (last_update : time_point).

Record MongoCacheTraits := {
  KeyType : Type;
  KeyType_eq_dec :: EqDecision KeyType;
  KeyType_countable :: Countable KeyType;
  ObjectType : Type;
  Document : Type;                                 (* a document of the cursor *)
  kName : string;
  kMongoUpdateFieldName : string;
  kKeyField : ObjectType → KeyType;
  kDeserializeFunc : Document → ObjectType + Thrown;   (* returns or throws *)
  kIsSecondaryPreferred : bool;
  kAreInvalidDocumentsSkipped : bool;
  show_key : KeyType → string;                     (* operator<< of KeyType *)
  show_id : Document → string                      (* sm::ToString(doc["_id"]) *)
}.

(** [MongoCacheTraits::DataType], the cache map. *)
Abbreviation DataType T := (gmap (KeyType T) (ObjectType T)).

(** The component: its collection and the map it has published. *)
Record State (T : MongoCacheTraits) := {
  mongo_collection_ : DocumentValue → list (Document T);   (* Find(query).Get() *)
  data : DataType T                                        (* *this->Get() *)
}.
Arguments mongo_collection_ {T} s.
Arguments data {T} s.

(** The calls made on the log and on [cache::UpdateStatisticsScope]. *)
Inductive Effect :=
| EfLogInfo (message : string)
| EfLogError (message : string)
| EfLogErrorException (message : string) (ex : Thrown)   (* LOG_ERROR() << message << e *)
| IncreaseDocumentsReadCount (n : nat)
| IncreaseDocumentsParseFailures (n : nat)
| Finish (size : nat)
| FinishNoChanges.

Inductive UpdateResult :=
| UpdateReturned
| UpdateThrew (t : Thrown).

Definition GetQuery (T : MongoCacheTraits) (type : UpdateType) (last_update : time_point)
  : DocumentValue :=
  match type with
  | kFull => kEmptyObject
  | kIncremental => make_document_gt (kMongoUpdateFieldName T) last_update
  end.

Definition GetData {T : MongoCacheTraits} (self : State T) (type : UpdateType) : DataType T :=
  match type with
  | kIncremental => data self
  | kFull => ∅
  end.

Definition is_incremental (type : UpdateType) : bool :=
  match type with
  | kIncremental => true
  | kFull => false
  end.

Definition duplicate_message (T : MongoCacheTraits) (key : KeyType T) : string :=
  "Found duplicate key for 2 items in cache " +:+ kName T +:+ ", key=" +:+ show_key T key.

(** The text streamed before the exception object ([<< e]); the object
    itself is kept apart in [EfLogErrorException]. *)
Definition failure_message (T : MongoCacheTraits) (doc : Document T) : string :=
  "Failed to deserialize cache item of cache " +:+ kName T +:+ ", _id=" +:+ show_id T doc
    +:+ ", what(): ".

(** The [for] loop of [Update] over the documents left in the cursor: the
    map as filled when the loop ends, or the exception that ends it. *)
Fixpoint read_documents {T : MongoCacheTraits} (type : UpdateType)
    (docs : list (Document T)) (new_cache : DataType T)
  : list Effect * (DataType T + Thrown) :=
  match docs with
  | [] => ([], inl new_cache)
  | doc :: rest =>
      match kDeserializeFunc T doc with
      | inl object =>
          let key := kKeyField T object in
          if is_incremental type || bool_decide (new_cache !! key = None)
          then
            let '(e, r) := read_documents type rest (<[key := object]> new_cache) in
            (IncreaseDocumentsReadCount 1 :: e, r)
          else
            let '(e, r) := read_documents type rest new_cache in
            (IncreaseDocumentsReadCount 1 :: EfLogError (duplicate_message T key) :: e, r)
      | inr (StdException what) =>
          if kAreInvalidDocumentsSkipped T
          then
            let '(e, r) := read_documents type rest new_cache in
            (IncreaseDocumentsReadCount 1
               :: EfLogErrorException (failure_message T doc) (StdException what)
               :: IncreaseDocumentsParseFailures 1 :: e, r)
          else
            ([IncreaseDocumentsReadCount 1;
              EfLogErrorException (failure_message T doc) (StdException what);
              IncreaseDocumentsParseFailures 1], inr (StdException what))
      | inr NonStdException =>
          ([IncreaseDocumentsReadCount 1], inr NonStdException)
      end
  end.

(** [MongoCache::Update].  [now] is not used by the body. *)
Definition Update {T : MongoCacheTraits} (self : State T) (type : UpdateType)
    (last_update now : time_point) : UpdateResult * State T * list Effect :=
  let query := GetQuery T type last_update in
  let cursor := mongo_collection_ self query in
  if is_incremental type && bool_decide (cursor = [])
  then (UpdateReturned, self, [EfLogInfo ("No changes in cache " +:+ kName T); FinishNoChanges])
  else
    let new_cache := GetData self type in
    match read_documents type cursor new_cache with
    | (e, inl new_cache) =>
        (UpdateReturned,
         {| mongo_collection_ := mongo_collection_ self; data := new_cache |},
         e ++ [Finish (size new_cache)])
    | (e, inr t) => (UpdateThrew t, self, e)
    end.

(** *** What the statements are about *)

(** The objects of the documents that deserialize, in cursor order. *)
Definition objects {T : MongoCacheTraits} (docs : list (Document T)) : list (ObjectType T) :=
  omap (λ doc, match kDeserializeFunc T doc with inl o => Some o | inr _ => None end) docs.

(** The objects with key [k], in cursor order. *)
Definition with_key {T : MongoCacheTraits} (k : KeyType T) (os : list (ObjectType T))
  : list (ObjectType T) :=
  filter (λ o, kKeyField T o = k) os.

(** A document the loop gets past: it deserializes, or it throws a
    [std::exception] and invalid documents are skipped. *)
Definition passable {T : MongoCacheTraits} (doc : Document T) : bool :=
  match kDeserializeFunc T doc with
  | inl _ => true
  | inr (StdException _) => kAreInvalidDocumentsSkipped T
  | inr NonStdException => false
  end.

(** A document whose deserialization throws a [std::exception]. *)
Definition invalid {T : MongoCacheTraits} (doc : Document T) : bool :=
  match kDeserializeFunc T doc with
  | inr (StdException _) => true
  | _ => false
  end.

Definition documents_read (e : list Effect) : nat :=
  sum_list_with (λ x, match x with IncreaseDocumentsReadCount n => n | _ => 0 end) e.

Definition parse_failures (e : list Effect) : nat :=
  sum_list_with (λ x, match x with IncreaseDocumentsParseFailures n => n | _ => 0 end) e.

Definition errors_logged (e : list Effect) : nat :=
  sum_list_with (λ x, match x with
                      | EfLogError _ | EfLogErrorException _ _ => 1
                      | _ => 0
                      end) e.

Definition is_finish (x : Effect) : bool :=
  match x with
  | Finish _ | FinishNoChanges => true
  | _ => false
  end.

Definition count_invalid {T : MongoCacheTraits} (docs : list (Document T)) : nat :=
  sum_list_with (λ doc, if invalid doc then 1 else 0) docs.

(** Every object of the map is stored under its own key. *)
Definition well_keyed {T : MongoCacheTraits} (m : DataType T) : Prop :=
  ∀ k o, m !! k = Some o → kKeyField T o = k.

(** The documents [Update] reads: what the collection yields for its query. *)
Definition cursor_of {T : MongoCacheTraits} (self : State T) (type : UpdateType)
    (last_update : time_point) : list (Document T) :=
  mongo_collection_ self (GetQuery T type last_update).

(** Sample traits: documents are a name and a value, or unreadable. *)
Inductive SampleDoc :=
| Good (name : string) (value : nat)
| Broken (id : string)
| Poisoned.

Definition sample_traits (skip : bool) : MongoCacheTraits :=
  {| KeyType := string; ObjectType := string * nat; Document := SampleDoc;
     kName := "sample"; kMongoUpdateFieldName := "updated";
     kKeyField := fst;
     kDeserializeFunc := λ doc,
       match doc with
       | Good name value => inl (name, value)
       | Broken _ => inr (StdException "bad bson")
       | Poisoned => inr NonStdException
       end;
     kIsSecondaryPreferred := true;
     kAreInvalidDocumentsSkipped := skip;
     show_key := λ k, k;
     show_id := λ doc, match doc with Broken id => id | Good name _ => name | Poisoned => "" end |}.

Definition sample_state (skip : bool) (docs : list SampleDoc) (cache : gmap string (string * nat))
  : State (sample_traits skip) :=
  Build_State (sample_traits skip) (λ _, docs) cache.

End MongoCache.

(** * Properties *)

(** ** Sequential execution *)

Lemma run_bind {A B} (p : Prog A) (f : A -> Prog B) c :
  run (bind p f) c =
  match run p c with
  | (Returned a, c', t) => let '(r, c'', t') := run (f a) c' in (r, c'', t ++ t')
  | (Threw e, c', t) => (Threw e, c', t)
  | (Blocked, c', t) => (Blocked, c', t)
  | (UndefinedBehaviour, c', t) => (UndefinedBehaviour, c', t)
  end.
Proof.
  revert c. induction p as [a|e| |T act k IH]; intros c; simpl; try done.
  - by destruct (run (f a) c) as [[r c'] t].
  - destruct (act c) as [[[b c'] t]|]; [|done].
    rewrite IH. destruct (run (k b) c') as [[[a|e| |] c''] t']; try done.
    destruct (run (f a) c'') as [[r c3] t3]. by rewrite (assoc (++)).
Qed.

(** [run] is one schedule of the interleaved semantics: the thread alone. *)
Lemma run_unfold_step {A} (p p' : Prog A) c c' t :
  thread_step p c = Some (p', c', t) →
  run p c = (result_of (run p' c'), cell_of (run p' c'), t ++ trace_of (run p' c')).
Proof.
  destruct p as [a|e| |T act k]; simpl; try done.
  destruct (act c) as [[[b c1] t1]|]; [|done].
  intros [= <- <- <-]. by destruct (run (k b) c1) as [[r c2] t2].
Qed.

Lemma run_is_a_schedule (p : Prog (list Value)) c tr :
  ∃ p', steps ([p], c, tr) ([p'], cell_of (run p c), tr ++ trace_of (run p c)) ∧
        thread_step p' (cell_of (run p c)) = None.
Proof.
  revert c tr. induction p as [a|e| |T act k IH]; intros c tr;
    try (eexists; split; [rewrite app_nil_r; apply rtc_refl|done]).
  simpl. destruct (act c) as [[[b c1] t1]|] eqn:Hact.
  - destruct (IH b c1 (tr ++ t1)) as (p' & Hsteps & Hend).
    destruct (run (k b) c1) as [[r c2] t2]. unfold cell_of, trace_of in *. simpl in *.
    exists p'. split; [|done]. rewrite (assoc (++)).
    eapply rtc_l; [|exact Hsteps].
    apply (step_thread [] (Atomic act k) [] c tr (k b) c1 t1). simpl. by rewrite Hact.
  - exists (Atomic act k). unfold cell_of, trace_of. simpl.
    split; [rewrite app_nil_r; apply rtc_refl|by rewrite Hact].
Qed.

Lemma step_at_steps i cfg : steps cfg (step_at i cfg).
Proof.
  destruct cfg as [[pool c] tr]. unfold step_at. simpl.
  destruct (pool !! i) as [p|] eqn:Hi; [|apply rtc_refl].
  destruct (thread_step p c) as [[[p' c'] t]|] eqn:Hstep; [|apply rtc_refl].
  apply rtc_once.
  rewrite insert_take_drop by (by eapply lookup_lt_Some).
  rewrite <- (take_drop_middle pool i p) at 1 by done.
  by constructor.
Qed.

Lemma schedule_steps choices cfg : steps cfg (schedule choices cfg).
Proof.
  revert cfg. induction choices as [|i choices IH]; intros cfg; [apply rtc_refl|].
  simpl. eapply rtc_trans; [apply step_at_steps|apply IH].
Qed.

Lemma hook_count_app t1 t2 : hook_count (t1 ++ t2) = hook_count t1 + hook_count t2.
Proof. apply sum_list_with_app. Qed.

Lemma run_calls_app ops1 ops2 c :
  run_calls (ops1 ++ ops2) c =
  let o1 := run_calls ops1 c in
  let o2 := run_calls ops2 (final_cell o1) in
  (results_of o1 ++ results_of o2, final_cell o2, history_of o1 ++ history_of o2).
Proof.
  unfold results_of, final_cell, history_of.
  revert c. induction ops1 as [|op ops1 IH]; intros c; simpl.
  - by destruct (run_calls ops2 c) as [[rs c'] t].
  - destruct (call op c) as [[r c1] t1]. rewrite IH. simpl.
    destruct (run_calls ops1 c1) as [[rs c2] t2]. simpl.
    destruct (run_calls ops2 c2) as [[rs' c3] t3]. simpl.
    by rewrite (assoc (++)).
Qed.

(** Case analysis of one call: on the call, on the members of the cell and on
    what the hooks of the components involved do. *)
Ltac split_cell c :=
  let n := fresh "n" in let p := fresh "p" in let s := fresh "s" in
  let cancelled := fresh "cancelled" in let fired := fresh "fired" in
  let d1 := fresh "d1" in let d2 := fresh "d2" in
  destruct c as [n p s cancelled fired d1 d2].

Ltac split_data :=
  repeat match goal with
    | x : bool |- _ => destruct x
    | x : option ComponentBase |- _ => destruct x
    | x : ComponentBase |- _ => destruct x
    | x : HookOutcome |- _ => destruct x
    | x : Thrown |- _ => destruct x
    end.

Ltac by_cases := split_data; cbn; repeat case_bool_decide; cbn; try done.

(** No serial call goes through a null [component_]: each hook call follows a
    [HasComponent] check that nothing can invalidate in between. *)
Lemma call_defined op c : result_of (call op c) ≠ UndefinedBehaviour.
Proof. split_cell c. destruct op; by_cases. Qed.

(** ** [ExtractComponent] *)

Lemma run_ExtractComponent c :
  run ExtractComponent c = (Returned (component_ c), set_component_ None c, []).
Proof. done. Qed.

(** C10. [ExtractComponent] writes [component_] and nothing else: the name,
    the stage, the cancellation flag, the guard of the cancellation callback
    and both dependency sets are the same after the call as before, held
    component or not; the call emits no event (no callback, no wake-up). *)
Theorem ExtractComponent_frame c :
  let o := run ExtractComponent c in
  name_ (cell_of o) = name_ c ∧
  stage_ (cell_of o) = stage_ c ∧
  stage_switching_cancelled_ (cell_of o) = stage_switching_cancelled_ c ∧
  on_loading_cancelled_called_ (cell_of o) = on_loading_cancelled_called_ c ∧
  it_depends_on_ (cell_of o) = it_depends_on_ c ∧
  depends_on_it_ (cell_of o) = depends_on_it_ c ∧
  trace_of o = [].
Proof. rewrite run_ExtractComponent. by repeat split. Qed.

(** ** [WaitAndGetComponent] *)

Lemma run_WaitAndGetComponent interrupted c :
  run (WaitAndGetComponent interrupted) c =
  if stage_switching_cancelled_ c then (Threw ComponentsLoadCancelledException, c, [])
  else match component_ c with
       | Some x => (Returned (Some x), c, [])
       | None => if interrupted then (Threw ComponentsLoadCancelledException, c, [])
                 else (Blocked, c, [])
       end.
Proof. split_cell c. by_cases. Qed.

(** C1, the claim fails: a cell that holds [X], on which cancellation is
    requested afterwards, makes [WaitAndGetComponent] throw
    [ComponentsLoadCancelledException] although [X] is still held. *)
Lemma WaitAndGetComponent_held_after_cancellation_throws :
  let c := final_cell (run_calls [OpSetComponent (Some X); OpSetStageSwitchingCancelled true]
                                 (ComponentInfo_new "a")) in
  component_ c = Some X ∧
  result_of (run (WaitAndGetComponent false) c) = Threw ComponentsLoadCancelledException ∧
  result_of (run (WaitAndGetComponent false) c) ≠ Returned (Some X).
Proof. by repeat split. Qed.

(** C1, amended. [WaitAndGetComponent] changes nothing in the cell, and
    - throws [ComponentsLoadCancelledException] exactly when cancellation is
      requested (a component being held or not), or when the wait is given up
      with nothing held: with cancellation requested it never blocks;
    - returns the held component exactly when one is held and cancellation is
      not requested;
    - is still waiting exactly when nothing is held, cancellation is not
      requested and the wait was not given up. *)
Theorem WaitAndGetComponent_outcome interrupted c :
  let o := run (WaitAndGetComponent interrupted) c in
  cell_of o = c ∧ trace_of o = [] ∧
  (result_of o = Threw ComponentsLoadCancelledException ↔
     stage_switching_cancelled_ c = true ∨ (component_ c = None ∧ interrupted = true)) ∧
  (∀ x, result_of o = Returned (Some x) ↔
     stage_switching_cancelled_ c = false ∧ component_ c = Some x) ∧
  (result_of o = Blocked ↔
     stage_switching_cancelled_ c = false ∧ component_ c = None ∧ interrupted = false).
Proof.
  rewrite run_WaitAndGetComponent.
  destruct (stage_switching_cancelled_ c), (component_ c) as [y|], interrupted;
    cbn; repeat split; try done; intuition congruence.
Qed.

(** ** [WaitStage] *)

Lemma run_WaitStage stage method_name interrupted c :
  run (WaitStage stage method_name interrupted) c =
  if stage_switching_cancelled_ c || bool_decide (stage_ c = stage) || interrupted
  then (Returned tt, c, [])
  else (Blocked, c, []).
Proof. split_cell c. by_cases. Qed.

(** The [throw] of [WaitStage] is unreachable: it needs [ok] false, that is a
    false predicate, and [stage_switching_cancelled_] true, which makes the
    predicate true. *)
Lemma WaitStage_never_throws stage method_name interrupted c e :
  result_of (run (WaitStage stage method_name interrupted) c) ≠ Threw e.
Proof. rewrite run_WaitStage. by case_match. Qed.

Lemma WaitStage_at_target method_name interrupted c :
  run (WaitStage (stage_ c) method_name interrupted) c = (Returned tt, c, []).
Proof.
  rewrite run_WaitStage, bool_decide_true by done.
  by rewrite orb_true_r.
Qed.

(** C2, the code at the failing input: the cell is in [kCreated], cancellation
    is requested, and [WaitStage(kRunning, "OnAllComponentsLoaded")] returns
    normally, whether its own wait was given up or not, where the claim has a
    cancellation error carrying the operation name. *)
Theorem WaitStage_cancelled_before_target_returns :
  let c := final_cell (run_calls [OpSetComponent (Some X); OpSetStageSwitchingCancelled true]
                                 (ComponentInfo_new "a")) in
  stage_ c = kCreated ∧ stage_switching_cancelled_ c = true ∧
  result_of (run (WaitStage kRunning "OnAllComponentsLoaded" false) c) = Returned tt ∧
  result_of (run (WaitStage kRunning "OnAllComponentsLoaded" true) c) = Returned tt ∧
  result_of (run (WaitStage kRunning "OnAllComponentsLoaded" false) c)
    ≠ Threw (StageSwitchingCancelledException "OnAllComponentsLoaded cancelled").
Proof. by repeat split. Qed.

(** ** [OnAllComponentsLoaded] *)

(** C9, the claim fails: the hook of [Y] throws an object that is not a
    [std::exception]; the [catch] clause does not match, and the caller gets
    that object as thrown, with no component name and nothing logged. *)
Lemma OnAllComponentsLoaded_non_std_exception_unwrapped :
  let c := final_cell (run_calls [OpSetComponent (Some Y)] (ComponentInfo_new "a")) in
  component_ c = Some Y ∧
  cb_OnAllComponentsLoaded Y = HookThrows NonStdException ∧
  run OnAllComponentsLoaded c
    = (Threw (Propagated NonStdException), c, [EvOnAllComponentsLoaded Y]).
Proof. by repeat split. Qed.

(** C9, amended. On a cell holding [x], [OnAllComponentsLoaded] calls the hook
    of [x] once and leaves the cell as it was; if the hook returns, so does the
    call; if the hook throws a [std::exception], the call logs and throws a
    [runtime_error] whose message names the component and carries [what()];
    any other thrown object reaches the caller unchanged.  In no case does the
    call return when the hook threw. *)
Theorem OnAllComponentsLoaded_outcome c x :
  component_ c = Some x →
  let o := run OnAllComponentsLoaded c in
  cell_of o = c ∧
  (cb_OnAllComponentsLoaded x = HookReturns →
     result_of o = Returned tt ∧ trace_of o = [EvOnAllComponentsLoaded x]) ∧
  (∀ what, cb_OnAllComponentsLoaded x = HookThrows (StdException what) →
     let message := "OnAllComponentsLoaded() failed for component " +:+ name_ c +:+ ": " +:+ what in
     result_of o = Threw (runtime_error message) ∧
     trace_of o = [EvOnAllComponentsLoaded x; EvLogError message]) ∧
  (cb_OnAllComponentsLoaded x = HookThrows NonStdException →
     result_of o = Threw (Propagated NonStdException)) ∧
  (∀ t, cb_OnAllComponentsLoaded x = HookThrows t → ∀ v, result_of o ≠ Returned v).
Proof.
  split_cell c. simpl. intros ->. destruct x as [i h1 h2 h3]. simpl.
  destruct h2 as [|[w|]]; cbn; repeat split; try done.
  all: by match goal with H : HookThrows _ = HookThrows _ |- _ => injection H as -> end.
Qed.

Lemma OnAllComponentsLoaded_outcome_witness :
  let c := cell_of (run (SetComponent (Some W)) (ComponentInfo_new "dns")) in
  result_of (run OnAllComponentsLoaded c)
  = Threw (runtime_error "OnAllComponentsLoaded() failed for component dns: no route").
Proof.
  intros c.
  destruct (OnAllComponentsLoaded_outcome c W eq_refl) as (_ & _ & H & _).
  exact (proj1 (H "no route" eq_refl)).
Defined.

(** ** What one call does to each member *)

Lemma call_stage op c :
  stage_ (cell_of (call op c)) = default (stage_ c) (requested_stage op).
Proof. split_cell c. destruct op; by_cases. Qed.


Lemma call_keeps_empty op c :
  installs op = false → component_ c = None → component_ (cell_of (call op c)) = None.
Proof. split_cell c. simpl. intros Hop ->. destruct op; by_cases. Qed.

(** A call that installs nothing hands out at most what the cell holds. *)
Lemma call_hands_out op c :
  installs op = false →
  is_nonempty (result_of (call op c)) + held (cell_of (call op c)) ≤ held c.
Proof.
  split_cell c. intros Hop. destruct op; by_cases; simpl in *; try done; lia.
Qed.

(** Serially, the callback is made exactly when the guard goes up. *)
Lemma call_hook_accounting op c :
  hook_count (trace_of (call op c)) + Nat.b2n (on_loading_cancelled_called_ c)
  = Nat.b2n (on_loading_cancelled_called_ (cell_of (call op c))).
Proof. split_cell c. destruct op; by_cases. Qed.

Lemma run_calls_cons op ops c :
  run_calls (op :: ops) c =
  let o := call op c in
  let h := run_calls ops (cell_of o) in
  (result_of o :: results_of h, final_cell h, trace_of o ++ history_of h).
Proof.
  unfold results_of, final_cell, history_of, result_of, cell_of, trace_of.
  simpl. destruct (call op c) as [[r c'] t]. simpl.
  by destruct (run_calls ops c') as [[rs c''] t'].
Qed.

Lemma run_calls_keep_empty ops c :
  Forall (λ op, installs op = false) ops →
  component_ c = None → component_ (final_cell (run_calls ops c)) = None.
Proof.
  intros Hops. revert c. induction Hops as [|op ops Hop _ IH]; intros c Hc; [done|].
  rewrite run_calls_cons. apply IH. by apply call_keeps_empty.
Qed.

Lemma run_calls_hand_out ops c :
  Forall (λ op, installs op = false) ops →
  nonempty_count (results_of (run_calls ops c)) + held (final_cell (run_calls ops c)) ≤ held c.
Proof.
  intros Hops. revert c. induction Hops as [|op ops Hop _ IH]; intros c; [done|].
  rewrite run_calls_cons. cbn.
  specialize (IH (cell_of (call op c))). pose proof (call_hands_out op c Hop).
  unfold nonempty_count in *. lia.
Qed.

Lemma run_calls_hook_accounting ops c :
  hook_count (history_of (run_calls ops c)) + Nat.b2n (on_loading_cancelled_called_ c)
  = Nat.b2n (on_loading_cancelled_called_ (final_cell (run_calls ops c))).
Proof.
  revert c. induction ops as [|op ops IH]; intros c; [done|].
  rewrite run_calls_cons. cbn. rewrite hook_count_app.
  specialize (IH (cell_of (call op c))). pose proof (call_hook_accounting op c). lia.
Qed.

Lemma held_le_1 c : held c ≤ 1.
Proof. unfold held. case_match; lia. Qed.

(** ** [SetComponent] *)

(** One caller, nobody else on the cell: on an empty cell [SetComponent(x)]
    stores [x] and sets the stage; with cancellation requested and the guard
    down, the callback of [x] is the first thing it does after storing; with
    no cancellation requested it makes no callback. *)
Lemma SetComponent_alone c x :
  component_ c = None →
  let o := run (SetComponent (Some x)) c in
  component_ (cell_of o) = Some x ∧
  result_of (run GetComponent (cell_of o)) = Returned (Some x) ∧
  result_of (run HasComponent (cell_of o)) = Returned true ∧
  stage_ (cell_of o) = kCreated ∧
  result_of (run GetStage (cell_of o)) = Returned kCreated ∧
  (stage_switching_cancelled_ c = true → on_loading_cancelled_called_ c = false →
     hook_count (trace_of o) = 1 ∧
     ∃ rest, trace_of o = EvOnLoadingCancelled x :: rest) ∧
  (stage_switching_cancelled_ c = false → trace_of o = [EvNotifyAll]).
Proof.
  split_cell c. simpl. intros ->.
  destruct x as [i [|t] h2 h3], cancelled, fired; cbn; repeat split; try done; eauto.
Qed.

(** ** The held slot *)

(** C6, the claim fails: after [X] was extracted, [SetComponent(Y)] fills the
    slot again. *)
Lemma SetComponent_after_extraction_refills :
  let h := run_calls [OpSetComponent (Some X); OpExtractComponent; OpSetComponent (Some Y)]
                     (ComponentInfo_new "a") in
  results_of h !! 1 = Some (Returned (VOwned (Some X))) ∧
  component_ (final_cell h) = Some Y ∧
  result_of (run HasComponent (final_cell h)) = Returned true.
Proof. by repeat split. Qed.

(** C6, amended. The slot holds at most one component at a time: it is a
    single [unique_ptr], and [SetComponent(y)] on an occupied cell destroys
    the previous holder before anything else and leaves [y] alone in the
    slot.  After [ExtractComponent] the slot stays empty through every serial
    history of calls that install nothing; the cell has no single-shot guard,
    and a later [SetComponent(y)] fills it with [y]. *)
Theorem held_slot_after_extraction c ops y :
  Forall (λ op, installs op = false) ops →
  let h := run_calls (OpExtractComponent :: ops) c in
  component_ (final_cell h) = None ∧
  result_of (run HasComponent (final_cell h)) = Returned false ∧
  component_ (cell_of (run (SetComponent (Some y)) (final_cell h))) = Some y ∧
  (∃ rest, trace_of (run (SetComponent (Some y)) c) = destroy (component_ c) ++ rest) ∧
  component_ (cell_of (run (SetComponent (Some y)) c)) = Some y.
Proof.
  intros Hops h.
  assert (component_ (final_cell h) = None) as Hnone.
  { subst h. rewrite run_calls_cons. by apply run_calls_keep_empty. }
  split; [done|]. split; [|split; [|split]].
  - destruct (final_cell h) as [n p s cancelled fired d1 d2].
    simpl in Hnone. by subst p.
  - destruct (final_cell h) as [n p s cancelled fired d1 d2].
    simpl in Hnone. subst p. by_cases.
  - split_cell c. by_cases; eauto.
  - split_cell c. by_cases.
Qed.

Lemma held_slot_after_extraction_witness :
  let h := run_calls [OpExtractComponent; OpOnLoadingCancelled; OpSetComponent None;
                      OpClearComponent; OpSetStage kRunning]
             (cell_of (run (SetComponent (Some X)) (ComponentInfo_new "a"))) in
  component_ (final_cell h) = None.
Proof.
  intros h.
  refine (proj1 (held_slot_after_extraction
                   (cell_of (run (SetComponent (Some X)) (ComponentInfo_new "a")))
                   [OpOnLoadingCancelled; OpSetComponent None; OpClearComponent;
                    OpSetStage kRunning] Y _)).
  repeat constructor.
Defined.

(** ** The cancellation flag *)




(** ** The stage *)

Lemma observed_stages_follow ops c :
  observed_stages ops c = follow_requests (stage_ c) ops.
Proof.
  revert c. induction ops as [|op ops IH]; intros c; [done|].
  simpl. by rewrite IH, call_stage.
Qed.

Lemma final_stage_follows ops c :
  stage_ (final_cell (run_calls ops c))
  = default (stage_ c) (last (follow_requests (stage_ c) ops)).
Proof.
  revert c. induction ops as [|op ops IH]; intros c; [done|].
  rewrite run_calls_cons.
  change (stage_ (final_cell (run_calls ops (cell_of (call op c)))) =
          default (stage_ c) (last (follow_requests (stage_ c) (op :: ops)))).
  rewrite IH, call_stage. cbn [follow_requests]. rewrite last_cons.
  by destruct (last _).
Qed.

(** C8, the claim fails: from a new cell, [SetStage(kTornDown)] skips three
    stages, and [SetComponent] then takes the stage back to [kCreated]. *)
Lemma SetStage_skips_and_SetComponent_moves_back :
  let ops := [OpSetStage kTornDown; OpSetComponent (Some X)] in
  stage_ (ComponentInfo_new "a") = kUnborn ∧
  observed_stages ops (ComponentInfo_new "a") = [kTornDown; kCreated] ∧
  ¬ forward kUnborn kTornDown ∧ ¬ forward kTornDown kCreated ∧
  ¬ transitions_forward kUnborn (observed_stages ops (ComponentInfo_new "a")).
Proof.
  repeat split; try done; cbn; unfold forward; cbn; lia.
Qed.

(** C8, amended. The cell checks no order: after each call of a serial
    history [GetStage] observes the stage last asked for ([SetStage] stores
    its argument, [SetComponent] stores [kCreated], nothing else writes the
    stage).  So the observed stage moves forward one stage at a time exactly
    when the calls ask for the current stage or the next one, each in turn. *)
Theorem stage_follows_requests ops c :
  observed_stages ops c = follow_requests (stage_ c) ops ∧
  result_of (run GetStage (final_cell (run_calls ops c)))
    = Returned (default (stage_ c) (last (follow_requests (stage_ c) ops))) ∧
  (transitions_forward (stage_ c) (observed_stages ops c) ↔
   transitions_forward (stage_ c) (follow_requests (stage_ c) ops)).
Proof.
  split; [apply observed_stages_follow|]. split; [|by rewrite observed_stages_follow].
  rewrite <- final_stage_follows. done.
Qed.

(** ** Interleaved execution: the cancellation callback *)

Lemma guarded_mono {A} n m (p : Prog A) : n ≤ m → guarded n p → guarded m p.
Proof.
  revert n m. induction p as [a|e| |T act k IH]; intros n m Hnm; simpl; try done.
  intros H c b c' t Hact. destruct (H c b c' t Hact) as (Hf & Hle & Hg).
  split; [done|]. split; [lia|]. eapply IH; [|done]. lia.
Qed.

Lemma guarded_bind {A B} n (p : Prog A) (f : A → Prog B) :
  guarded n p → (∀ a, guarded 0 (f a)) → guarded n (bind p f).
Proof.
  revert n. induction p as [a|e| |T act k IH]; intros n Hp Hf; simpl; try done.
  - eapply guarded_mono; [|apply Hf]. lia.
  - intros c b c' t Hact. destruct (Hp c b c' t Hact) as (Hfl & Hle & Hg).
    split; [done|]. split; [done|]. by apply IH.
Qed.

Lemma guarded_quiet {A B} n (act : Action B) (k : B → Prog A) :
  quiet act → (∀ b, guarded n (k b)) → guarded n (Atomic act k).
Proof.
  intros Hq Hk c b c' t Hact. destruct (Hq c b c' t Hact) as [Hfl Ht].
  unfold won. rewrite Hfl, Ht. split; [done|].
  destruct (on_loading_cancelled_called_ c); simpl; (split; [lia|]);
    (eapply guarded_mono; [|apply Hk]); lia.
Qed.

Ltac solve_quiet :=
  let c := fresh "c" in
  let Hact := fresh "Hact" in
  intros c ? ? ? Hact; split_cell c; cbn in Hact;
  repeat case_match; simplify_eq; split; [done|];
  repeat match goal with x : option ComponentBase |- _ => destruct x end; done.

Ltac split_scrutinee :=
  match goal with
  | |- context [if negb ?b then _ else _] => is_var b; destruct b
  | |- context [if ?b then _ else _] => is_var b; destruct b
  | |- context [match ?o with _ => _ end] => is_var o; destruct o
  end.

(** Walks a member function step by step: a quiet step keeps the budget; the
    [exchange] and the callback are accounted for case by case. *)
Ltac solve_guarded :=
  cbn -[guarded];
  first
    [ exact I
    | apply guarded_quiet; [solve_quiet | intros ?; solve_guarded]
    | let c := fresh "c" in
      let Hact := fresh "Hact" in
      cbn [guarded]; intros c ? ? ? Hact; split_cell c; cbn in Hact;
      repeat case_match; simplify_eq;
      repeat match goal with x : bool |- _ => destruct x end;
      (split; [done | split; [cbn; lia | solve_guarded]])
    | split_scrutinee; solve_guarded ].

(** Every member function makes the callback only after winning the
    [exchange], and only once per win. *)
Lemma guarded_body op : guarded 0 (body op).
Proof. destruct op; solve_guarded. Qed.

Lemma guarded_thread ops : guarded 0 (thread ops).
Proof.
  induction ops as [|op ops IH]; [done|].
  simpl. apply guarded_bind; [apply guarded_body|].
  intros v. by apply guarded_bind.
Qed.

Lemma guarded_thread_step {A} n (p p' : Prog A) c c' t :
  guarded n p → thread_step p c = Some (p', c', t) →
  (on_loading_cancelled_called_ c = true → on_loading_cancelled_called_ c' = true) ∧
  hook_count t ≤ n + won c c' ∧
  guarded (n + won c c' - hook_count t) p'.
Proof.
  destruct p as [a|e| |T act k]; simpl; try done.
  intros Hg Hstep. destruct (act c) as [[[b c1] t1]|] eqn:Hact; [|done].
  injection Hstep as <- <- <-. by apply Hg.
Qed.

Lemma hook_invariant_init opss c : hook_invariant (map thread opss, c, []).
Proof.
  exists (map (λ _, 0) opss). split; simpl.
  - induction opss as [|ops opss IH]; simpl; constructor; [apply guarded_thread|done].
  - induction opss as [|ops opss IH]; simpl; lia.
Qed.

Lemma hook_invariant_step cfg cfg' :
  step cfg cfg' → hook_invariant cfg → hook_invariant cfg'.
Proof.
  intros [l1 p l2 c tr p' c' t Hstep] (budgets & Hg & Hsum). simpl in *.
  apply Forall2_app_inv_r in Hg as (b1 & b2' & Hg1 & Hg2 & ->).
  apply Forall2_cons_inv_r in Hg2 as (n & b2 & Hp & Hg2 & ->).
  destruct (guarded_thread_step n p p' c c' t Hp Hstep) as (Hfl & Hle & Hp').
  exists (b1 ++ (n + won c c' - hook_count t) :: b2). split; simpl.
  - apply Forall2_app; [done|]. by constructor.
  - rewrite hook_count_app. rewrite !sum_list_with_app in *. simpl in *.
    unfold won in *. destruct (on_loading_cancelled_called_ c).
    + rewrite Hfl by done. simpl in *. lia.
    + destruct (on_loading_cancelled_called_ c'); simpl in *; lia.
Qed.

Lemma hook_invariant_steps cfg cfg' :
  steps cfg cfg' → hook_invariant cfg → hook_invariant cfg'.
Proof. induction 1; eauto using hook_invariant_step. Qed.

Lemma hook_invariant_at_most_once cfg : hook_invariant cfg → hook_count cfg.2 ≤ 1.
Proof.
  intros (budgets & _ & Hsum).
  destruct (on_loading_cancelled_called_ cfg.1.2); simpl in Hsum; lia.
Qed.

(** ** Serial execution: the cancellation callback *)

Lemma call_OnLoadingCancelled_fired c :
  on_loading_cancelled_called_ c = true →
  call OpOnLoadingCancelled c = (Returned VUnit, c, []).
Proof. split_cell c. simpl. intros ->. by_cases. Qed.

Lemma call_OnLoadingCancelled_held c :
  is_Some (component_ c) →
  on_loading_cancelled_called_ (cell_of (call OpOnLoadingCancelled c)) = true ∧
  component_ (cell_of (call OpOnLoadingCancelled c)) = component_ c.
Proof. split_cell c. simpl. intros [x ->]. by_cases. Qed.

Lemma OnLoadingCancelled_twice c x :
  component_ c = Some x → on_loading_cancelled_called_ c = false →
  history_of (run_calls [OpOnLoadingCancelled; OpOnLoadingCancelled] c)
  = [EvOnLoadingCancelled x].
Proof. split_cell c. simpl. intros -> ->. by_cases. Qed.

(** C3. The cancellation callback is made at most once on a cell.
    - Interleaved: whatever calls any number of threads make on a cell, and
      however the critical sections of those calls interleave (the inline
      path of [SetComponent] against explicit [OnLoadingCancelled] calls
      included), at every moment at most one callback has been made.
    - Serially, on a cell that has not made its callback yet: every history
      makes at most one callback; once the cell holds a component, two
      [OnLoadingCancelled] calls in sequence bring the number of callbacks
      made over the whole history to exactly one (made by the first of them,
      on the held component, unless the inline path had made it), and any
      further call returns at once, leaving the cell as it is. *)
Theorem OnLoadingCancelled_at_most_once c0 opss cfg ops :
  steps (map thread opss, c0, []) cfg →
  on_loading_cancelled_called_ c0 = false →
  is_Some (component_ (final_cell (run_calls ops c0))) →
  let h := run_calls ops c0 in
  let twice := run_calls [OpOnLoadingCancelled; OpOnLoadingCancelled] (final_cell h) in
  hook_count cfg.2 ≤ 1 ∧
  hook_count (history_of h) ≤ 1 ∧
  hook_count (history_of h) + hook_count (history_of twice) = 1 ∧
  (hook_count (history_of h) = 0 →
     ∃ x, component_ (final_cell h) = Some x ∧ history_of twice = [EvOnLoadingCancelled x]) ∧
  call OpOnLoadingCancelled (final_cell twice) = (Returned VUnit, final_cell twice, []).
Proof.
  intros Hsteps Hc0 Hheld h twice.
  pose proof (run_calls_hook_accounting ops c0) as Hh. fold h in Hh.
  rewrite Hc0 in Hh. simpl in Hh.
  assert (on_loading_cancelled_called_ (final_cell twice) = true) as Hfired.
  { subst twice. rewrite !run_calls_cons. cbn [final_cell run_calls fst snd].
    destruct (call_OnLoadingCancelled_held (final_cell h) Hheld) as [Hf _].
    rewrite call_OnLoadingCancelled_fired by done. done. }
  pose proof (run_calls_hook_accounting [OpOnLoadingCancelled; OpOnLoadingCancelled]
                (final_cell h)) as Ht.
  fold twice in Ht. rewrite Hfired in Ht. simpl in Ht.
  split; [|split; [|split; [|split]]].
  - apply hook_invariant_at_most_once.
    eapply hook_invariant_steps; [done|]. apply hook_invariant_init.
  - destruct (on_loading_cancelled_called_ (final_cell h)); simpl in Hh; lia.
  - destruct (on_loading_cancelled_called_ (final_cell h)); simpl in *; lia.
  - intros Hzero. destruct Hheld as [x Hx]. exists x. split; [done|].
    apply OnLoadingCancelled_twice; [done|].
    destruct (on_loading_cancelled_called_ (final_cell h)); simpl in Hh; [lia|done].
  - by apply call_OnLoadingCancelled_fired.
Qed.

Lemma OnLoadingCancelled_at_most_once_witness :
  let c0 := ComponentInfo_new "a" in
  let ops := [OpSetStageSwitchingCancelled true; OpSetComponent (Some X)] in
  let cfg := schedule [1; 1; 0; 0; 1; 0; 1; 0; 1; 0; 0] (map thread race_threads, c0, []) in
  hook_count cfg.2 ≤ 1 ∧
  hook_count (history_of (run_calls ops c0))
  + hook_count (history_of (run_calls [OpOnLoadingCancelled; OpOnLoadingCancelled]
                                      (final_cell (run_calls ops c0)))) = 1.
Proof.
  intros c0 ops cfg.
  destruct (OnLoadingCancelled_at_most_once c0 race_threads cfg ops)
    as (H1 & _ & H3 & _).
  - apply schedule_steps.
  - reflexivity.
  - eexists. reflexivity.
  - exact (conj H1 H3).
Defined.

(** The race of the two call sites, run: thread 0 installs [X] while thread 1
    requests cancellation and then fires the hook.  Whether thread 1 or the
    inline path of thread 0 wins the [exchange], [X] gets one callback. *)
Example race_explicit_call_wins :
  let cfg := schedule [1; 1; 0; 0; 1; 0; 1; 0; 1; 0; 0]
               (map thread race_threads, ComponentInfo_new "a", []) in
  cfg.2 = [EvNotifyAll; EvOnLoadingCancelled X; EvNotifyAll] ∧
  on_loading_cancelled_called_ cfg.1.2 = true.
Proof. by split. Qed.

Example race_inline_path_wins :
  let cfg := schedule [1; 1; 0; 0; 0; 0; 1; 1; 0; 0; 1]
               (map thread race_threads, ComponentInfo_new "a", []) in
  cfg.2 = [EvNotifyAll; EvOnLoadingCancelled X; EvNotifyAll] ∧
  on_loading_cancelled_called_ cfg.1.2 = true.
Proof. by split. Qed.

(** ** Interleaved execution: [ExtractComponent] *)

Lemma got_count_app l1 l2 : got_count (l1 ++ l2) = got_count l1 + got_count l2.
Proof. apply sum_list_with_app. Qed.

Lemma extract_invariant_init n c :
  extract_invariant (component_ c) (replicate n (thread [OpExtractComponent]), c, []).
Proof.
  unfold extract_invariant. cbn [fst snd]. split; [|split].
  - apply Forall_replicate. by left.
  - assert (got_count (replicate n (thread [OpExtractComponent])) = 0) as ->.
    { induction n as [|n IH]; [done|]. exact IH. }
    unfold held. by destruct (component_ c).
  - by right.
Qed.

Lemma extract_invariant_step p0 cfg cfg' :
  step cfg cfg' → extract_invariant p0 cfg → extract_invariant p0 cfg'.
Proof.
  intros [l1 p l2 c tr p' c' t Hstep] (Hpool & Hsum & Hcell). simpl in *.
  apply Forall_app in Hpool as [Hl1 Hl2].
  apply Forall_cons in Hl2 as [Hp Hl2].
  destruct Hp as [-> | [-> | ->]]; [|done..].
  injection Hstep as <- <- <-.
  rewrite got_count_app in Hsum. unfold extract_invariant. cbn [fst snd].
  rewrite got_count_app. unfold held in *.
  split; [|split].
  - apply Forall_app. split; [done|]. constructor; [|done].
    destruct Hcell as [-> | ->]; [right; by left | right; by right].
  - unfold got_count in *. destruct (component_ c); simpl in *; lia.
  - by left.
Qed.

Lemma extract_invariant_steps p0 cfg cfg' :
  steps cfg cfg' → extract_invariant p0 cfg → extract_invariant p0 cfg'.
Proof. induction 1; eauto using extract_invariant_step. Qed.

(** C5. [ExtractComponent] returns what the cell holds ([X] when it holds
    [X]) and leaves the cell empty; after it, through every serial history of
    calls that install nothing, a further [ExtractComponent] returns empty,
    and no such history hands out a component more than once.  When [n]
    threads call [ExtractComponent] concurrently, at every moment at most one
    of them has returned non-empty, every other one that returned got empty,
    the one that got something got the component the cell held, and what was
    handed out plus what is still held is what the cell held at the start. *)
Theorem ExtractComponent_hands_out_once c ops n cfg :
  Forall (λ op, installs op = false) ops →
  steps (replicate n (thread [OpExtractComponent]), c, []) cfg →
  result_of (run ExtractComponent c) = Returned (component_ c) ∧
  component_ (cell_of (run ExtractComponent c)) = None ∧
  result_of (run ExtractComponent (final_cell (run_calls (OpExtractComponent :: ops) c)))
    = Returned None ∧
  nonempty_count (results_of (run_calls ops c)) ≤ 1 ∧
  got_count cfg.1.1 ≤ 1 ∧
  got_count cfg.1.1 + held cfg.1.2 = held c ∧
  Forall (extractor_state (component_ c)) cfg.1.1.
Proof.
  intros Hops Hsteps. split; [done|]. split; [done|]. split; [|split].
  - assert (component_ (final_cell (run_calls (OpExtractComponent :: ops) c)) = None) as Hnone.
    { rewrite run_calls_cons. by apply run_calls_keep_empty. }
    rewrite run_ExtractComponent. unfold result_of. cbn [fst]. by rewrite Hnone.
  - pose proof (run_calls_hand_out ops c Hops). pose proof (held_le_1 c). lia.
  - destruct (extract_invariant_steps _ _ _ Hsteps (extract_invariant_init n c))
      as (Hpool & Hsum & _).
    assert (got_count cfg.1.1 + held cfg.1.2 = held c) as Heq.
    { rewrite Hsum. unfold held. by destruct (component_ c). }
    pose proof (held_le_1 c). repeat split; [lia|done..].
Qed.

Lemma ExtractComponent_hands_out_once_witness :
  let c := cell_of (run (SetComponent (Some X)) (ComponentInfo_new "a")) in
  let cfg := schedule [1; 0; 2] (replicate 3 (thread [OpExtractComponent]), c, []) in
  result_of (run ExtractComponent c) = Returned (Some X) ∧
  got_count cfg.1.1 ≤ 1 ∧
  got_count cfg.1.1 + held cfg.1.2 = held c.
Proof.
  intros c cfg.
  destruct (ExtractComponent_hands_out_once c
              [OpSetStageSwitchingCancelled true; OpOnLoadingCancelled; OpExtractComponent]
              3 cfg) as (H1 & _ & _ & _ & H5 & H6 & _).
  - repeat constructor.
  - apply schedule_steps.
  - exact (conj H1 (conj H5 H6)).
Defined.

(** Three callers race; the one scheduled first gets [X], the others empty. *)
Example extract_race :
  let c := cell_of (run (SetComponent (Some X)) (ComponentInfo_new "a")) in
  let cfg := schedule [1; 0; 2] (replicate 3 (thread [OpExtractComponent]), c, []) in
  cfg.1.1 = [Ret [VOwned None]; Ret [VOwned (Some X)]; Ret [VOwned None]] ∧
  component_ cfg.1.2 = None.
Proof. by split. Qed.

(** ** [SetComponent] on a never-filled cell, alone and in the race *)

Lemma call_keeps_never_filled op c :
  installs op = false → component_ c = None → on_loading_cancelled_called_ c = false →
  on_loading_cancelled_called_ (cell_of (call op c)) = false.
Proof. split_cell c. simpl. intros Hop -> ->. destruct op; by_cases. Qed.

(** A cell that never held a component is empty and its guard is down. *)
Lemma never_filled name ops :
  Forall (λ op, installs op = false) ops →
  component_ (final_cell (run_calls ops (ComponentInfo_new name))) = None ∧
  on_loading_cancelled_called_ (final_cell (run_calls ops (ComponentInfo_new name))) = false.
Proof.
  assert (∀ c, Forall (λ op, installs op = false) ops →
               component_ c = None → on_loading_cancelled_called_ c = false →
               component_ (final_cell (run_calls ops c)) = None ∧
               on_loading_cancelled_called_ (final_cell (run_calls ops c)) = false) as H.
  { intros c Hops. revert c. induction Hops as [|op ops Hop _ IH]; intros c Hc Hg; [done|].
    rewrite run_calls_cons. apply IH; [by apply call_keeps_empty|].
    by apply call_keeps_never_filled. }
  intros Hops. by apply H.
Qed.

Lemma in_race_held_mono x {A} h h' r n (p : Prog A) :
  (h = true → h' = true) → in_race x h r n p → in_race x h' r n p.
Proof.
  destruct p as [a|e| |T act k]; simpl; try done.
  intros Hh Hp c b c' t Hact Hok Hh'. apply (Hp c b c' t Hact Hok).
  destruct h; [|done]. intros _. apply Hh'. by apply Hh.
Qed.

Lemma in_race_bind x {A B} h r n (p : Prog A) (f : A → Prog B) :
  in_race x h r n p → (∀ a, in_race x false false 0 (f a)) → in_race x h r n (bind p f).
Proof.
  revert h r n. induction p as [a|e| |T act k IH]; intros h r n Hp Hf; simpl; try done.
  - destruct Hp as [-> ->]. eapply in_race_held_mono; [|apply Hf]. done.
  - intros c b c' t Hact Hok Hh.
    destruct (Hp c b c' t Hact Hok Hh) as (H1 & H2 & H3 & H4 & H5 & H6).
    do 5 (split; [done|]). by apply IH.
Qed.

Ltac solve_on_instance :=
  repeat constructor; unfold on_instance; cbn; try done.

(** Walks a thread of the race step by step, on every cell the race allows. *)
Ltac solve_in_race :=
  cbn -[in_race];
  first
    [ done
    | let c := fresh "c" in
      let Hact := fresh "Hact" in
      let Hok := fresh "Hok" in
      let Hh := fresh "Hh" in
      let Hc := fresh "Hc" in
      let Hp := fresh "Hp" in
      let Hg := fresh "Hg" in
      cbn [in_race]; intros c ? ? ? Hact Hok Hh; split_cell c;
      destruct Hok as (Hc & Hp & Hg); cbn in Hact, Hc, Hp, Hg, Hh;
      subst;
      destruct Hp as [-> | [-> ->]];
      try (by destruct (Hh eq_refl) as [? [=]]);
      repeat match goal with x : bool |- _ => destruct x end;
      try (by destruct (Hg eq_refl) as [? [=]]);
      try (by destruct (Hh eq_refl) as [? [=]]);
      repeat case_match; simplify_eq;
      (split; [unfold installed; cbn; by eauto 10 |
       split; [cbn; by eauto |
       split; [done |
       split; [solve_on_instance |
       split; [cbn; lia |
         cbn [component_ set_component_ set_stage_ set_on_loading_cancelled_called_
              set_stage_switching_cancelled_ set_it_depends_on_ set_depends_on_it_
              on_loading_cancelled_called_];
         try first [rewrite bool_decide_true by eauto
                   | rewrite bool_decide_false by (by intros [? [=]])];
         solve_in_race]]]]])
    | split_scrutinee; solve_in_race ].

Lemma in_race_OnLoadingCancelled x : in_race x false false 0 (body OpOnLoadingCancelled).
Proof. destruct x as [i h1 h2 h3]. solve_in_race. Qed.

Lemma in_race_SetComponent x : in_race x false true 0 (body (OpSetComponent (Some x))).
Proof. destruct x as [i h1 h2 h3]. solve_in_race. Qed.

Lemma in_race_installer x : in_race x false true 0 (thread [OpSetComponent (Some x)]).
Proof.
  cbn [thread]. apply in_race_bind; [apply in_race_SetComponent|]. by intros v.
Qed.

Lemma in_race_firing x ops :
  Forall (λ op, op = OpOnLoadingCancelled) ops → in_race x false false 0 (thread ops).
Proof.
  induction 1 as [|op ops -> _ IH]; [done|].
  cbn [thread]. apply in_race_bind; [apply in_race_OnLoadingCancelled|].
  intros v. by apply in_race_bind.
Qed.

Lemma thread_step_in_race x {A} h r n (p p' : Prog A) c c' t :
  in_race x h r n p → thread_step p c = Some (p', c', t) →
  installed x c → (h = true → is_Some (component_ c)) →
  installed x c' ∧
  (is_Some (component_ c) → is_Some (component_ c')) ∧
  (on_loading_cancelled_called_ c = true → on_loading_cancelled_called_ c' = true) ∧
  Forall (on_instance x) t ∧
  hook_count t ≤ n + won c c' ∧
  in_race x (bool_decide (is_Some (component_ c')))
          (r && negb (on_loading_cancelled_called_ c'))
          (n + won c c' - hook_count t) p'.
Proof.
  destruct p as [a|e| |T act k]; simpl; try done.
  intros Hp Hstep. destruct (act c) as [[[b c1] t1]|] eqn:Hact; [|done].
  injection Hstep as <- <- <-. by apply (Hp c b c1 t1).
Qed.

Lemma guard_after_step c c' :
  (on_loading_cancelled_called_ c = true → on_loading_cancelled_called_ c' = true) →
  Nat.b2n (on_loading_cancelled_called_ c) + won c c'
  = Nat.b2n (on_loading_cancelled_called_ c').
Proof.
  unfold won. destruct (on_loading_cancelled_called_ c); [|done].
  intros ->; done.
Qed.

Lemma race_invariant_init x c opss :
  stage_switching_cancelled_ c = true → component_ c = None →
  on_loading_cancelled_called_ c = false →
  Forall (Forall (λ op, op = OpOnLoadingCancelled)) opss →
  race_invariant x (thread [OpSetComponent (Some x)] :: map thread opss, c, []).
Proof.
  intros Hc Hp Hg Hopss.
  exists (thread [OpSetComponent (Some x)]), (map thread opss), true, 0, (map (λ _, 0) opss).
  cbn [fst snd]. rewrite Hp, Hg.
  assert (bool_decide (is_Some (@None ComponentBase)) = false) as ->.
  { apply bool_decide_false. by intros [? [=]]. }
  split; [done|]. split; [apply in_race_installer|]. split; [|split; [|split; [done|]]].
  - induction Hopss as [|ops opss Hops _ IH]; simpl; constructor; [by apply in_race_firing|done].
  - assert (sum_list (map (λ _, 0) opss) = 0) as ->; [|done].
    clear. induction opss as [|ops opss IH]; [done|]. exact IH.
  - split; [|done]. repeat split; [done|by left|]. by rewrite Hg.
Qed.

Lemma race_invariant_step x cfg cfg' :
  step cfg cfg' → race_invariant x cfg → race_invariant x cfg'.
Proof.
  intros [l1 p l2 c tr p' c' t Hstep]
    (p0 & rest & r & n0 & budgets & Hpool & Hp0 & Hrest & Hsum & Hr & Hok & Htr).
  cbn [fst snd] in *.
  assert (bool_decide (is_Some (component_ c)) = true → is_Some (component_ c)) as Hh.
  { by intros ?%bool_decide_eq_true. }
  destruct l1 as [|q l1]; cbn [app] in Hpool; injection Hpool as <- <-;
    unfold race_invariant; cbn [fst snd app].
  - destruct (thread_step_in_race x _ _ _ _ _ _ _ _ Hp0 Hstep Hok Hh)
      as (Hok' & Hkeep & Hmono & Ht & Hle & Hp').
    assert (bool_decide (is_Some (component_ c)) = true →
            bool_decide (is_Some (component_ c')) = true) as Hhh.
    { intros ?%bool_decide_eq_true. by apply bool_decide_eq_true, Hkeep. }
    exists p', l2, (r && negb (on_loading_cancelled_called_ c')),
      (n0 + won c c' - hook_count t), budgets.
    split; [done|]. split; [done|]. split; [|split; [|split; [|split; [done|]]]].
    + eapply Forall2_impl; [exact Hrest|]. intros n q. by apply in_race_held_mono.
    + rewrite hook_count_app. rewrite <- (guard_after_step c c' Hmono). lia.
    + intros [Hr'|Hg']%andb_false_iff; [by apply Hmono, Hr|].
      by apply negb_false_iff in Hg'.
    + apply Forall_app. by split.
  - apply Forall2_app_inv_r in Hrest as (b1 & b2' & Hg1 & Hg2 & ->).
    apply Forall2_cons_inv_r in Hg2 as (n & b2 & Hp & Hg2 & ->).
    destruct (thread_step_in_race x _ _ _ _ _ _ _ _ Hp Hstep Hok Hh)
      as (Hok' & Hkeep & Hmono & Ht & Hle & Hp').
    assert (bool_decide (is_Some (component_ c)) = true →
            bool_decide (is_Some (component_ c')) = true) as Hhh.
    { intros ?%bool_decide_eq_true. by apply bool_decide_eq_true, Hkeep. }
    exists q, (l1 ++ p' :: l2), r, n0, (b1 ++ (n + won c c' - hook_count t) :: b2).
    split; [done|]. split; [by eapply in_race_held_mono|].
    split; [|split; [|split; [|split; [done|]]]].
    + apply Forall2_app.
      * eapply Forall2_impl; [exact Hg1|]. intros m q'. by apply in_race_held_mono.
      * constructor; [done|].
        eapply Forall2_impl; [exact Hg2|]. intros m q'. by apply in_race_held_mono.
    + rewrite hook_count_app. rewrite <- (guard_after_step c c' Hmono).
      rewrite !sum_list_with_app in *. simpl in *. lia.
    + intros Hr'. by apply Hmono, Hr.
    + apply Forall_app. by split.
Qed.

Lemma race_invariant_steps x cfg cfg' :
  steps cfg cfg' → race_invariant x cfg → race_invariant x cfg'.
Proof. induction 1; eauto using race_invariant_step. Qed.

Lemma in_race_finished x {A} h r n (p : Prog A) :
  in_race x h r n p → finished p = true → n = 0 ∧ r = false.
Proof. by destruct p. Qed.

Lemma in_race_defined x {A} h r n (p : Prog A) : in_race x h r n p → p ≠ Undefined.
Proof. by intros Hp ->. Qed.

(** What the invariant says at a given moment of the race. *)
Lemma race_invariant_facts x cfg :
  race_invariant x cfg →
  hook_count cfg.2 ≤ 1 ∧
  Forall (on_instance x) cfg.2 ∧
  Forall (λ p, p ≠ Undefined) cfg.1.1 ∧
  (∀ p0, cfg.1.1 !! 0 = Some p0 → finished p0 = true →
     component_ cfg.1.2 = Some x ∧ stage_ cfg.1.2 = kCreated ∧
     on_loading_cancelled_called_ cfg.1.2 = true) ∧
  (Forall (λ p, finished p = true) cfg.1.1 → hook_count cfg.2 = 1).
Proof.
  intros (p0 & rest & r & n0 & budgets & Hpool & Hp0 & Hrest & Hsum & Hr & Hok & Htr).
  assert (finished p0 = true →
          component_ cfg.1.2 = Some x ∧ stage_ cfg.1.2 = kCreated ∧
          on_loading_cancelled_called_ cfg.1.2 = true ∧ n0 = 0) as Hdone.
  { intros Hfin. destruct (in_race_finished _ _ _ _ _ Hp0 Hfin) as [-> ->].
    specialize (Hr eq_refl). destruct Hok as (_ & [Hnone|[? ?]] & Hheld); [|done].
    destruct (Hheld Hr) as [y Hy]. congruence. }
  split; [|split; [done|split; [|split]]].
  - destruct (on_loading_cancelled_called_ cfg.1.2); simpl in Hsum; lia.
  - rewrite Hpool. constructor; [by eapply in_race_defined|].
    clear -Hrest. induction Hrest as [|n q budgets rest Hq _ IH]; constructor;
      [by eapply in_race_defined|done].
  - rewrite Hpool. intros q [= <-] Hfin. by destruct (Hdone Hfin) as (? & ? & ? & _).
  - rewrite Hpool. intros [Hfin0 Hfin]%Forall_cons.
    destruct (Hdone Hfin0) as (_ & _ & Hg & ->).
    assert (sum_list budgets = 0) as Hzero.
    { clear -Hrest Hfin. induction Hrest as [|n q budgets rest Hq _ IH]; [done|].
      apply Forall_cons in Hfin as [Hq' Hfin].
      destruct (in_race_finished _ _ _ _ _ Hq Hq') as [-> _]. simpl. by apply IH. }
    rewrite Hg, Hzero in Hsum. simpl in Hsum. lia.
Qed.

(** C4, the claim fails: the cell never held a component and cancellation is
    requested; thread 0 runs [SetComponent(X)], thread 1 an explicit
    [OnLoadingCancelled].  Thread 1 wins the [exchange] between thread 0's
    store and thread 0's own [exchange], so [SetComponent] returns, with [X]
    stored, before any callback has been made: the callback is left to
    thread 1. *)
Lemma SetComponent_returns_before_concurrent_callback :
  let c := final_cell (run_calls [OpSetStageSwitchingCancelled true] (ComponentInfo_new "a")) in
  let cfg := schedule [0; 1; 1; 0; 0; 0]
               (map thread [[OpSetComponent (Some X)]; [OpOnLoadingCancelled]], c, []) in
  component_ c = None ∧ stage_switching_cancelled_ c = true ∧
  on_loading_cancelled_called_ c = false ∧
  cfg.1.1 !! 0 = Some (Ret [VUnit]) ∧
  component_ cfg.1.2 = Some X ∧
  hook_count cfg.2 = 0 ∧
  EvOnLoadingCancelled X ∉ cfg.2.
Proof.
  repeat split. cbn. intros Hin.
  repeat (apply elem_of_cons in Hin as [Hin|Hin]; [discriminate|]).
  by apply elem_of_nil in Hin.
Qed.

(** C4, amended. On a cell that never held a component, [SetComponent(x)]
    stores [x], which [GetComponent] and [HasComponent] then observe, and sets
    the stage to [kCreated] (alone on the cell and with no cancellation
    requested, it makes no callback).  With cancellation already requested:
    - alone on the cell, it makes the callback of [x] itself, first thing
      after storing and before it returns;
    - racing with explicit [OnLoadingCancelled] calls of any number of
      threads, under every interleaving: the callback is made on [x] only and
      at most once, nobody calls through null, by the time [SetComponent] has
      returned (or let the callback's exception through) [x] is stored in
      stage [kCreated] and the guard is taken, by itself or by the explicit
      call that won it, and once every call has finished the callback has
      been made exactly once. *)
Theorem SetComponent_on_never_filled_cell name ops x opss cfg :
  Forall (λ op, installs op = false) ops →
  Forall (Forall (λ op, op = OpOnLoadingCancelled)) opss →
  let c := final_cell (run_calls ops (ComponentInfo_new name)) in
  steps (thread [OpSetComponent (Some x)] :: map thread opss, c, []) cfg →
  let o := run (SetComponent (Some x)) c in
  component_ (cell_of o) = Some x ∧
  result_of (run GetComponent (cell_of o)) = Returned (Some x) ∧
  result_of (run HasComponent (cell_of o)) = Returned true ∧
  stage_ (cell_of o) = kCreated ∧
  result_of (run GetStage (cell_of o)) = Returned kCreated ∧
  (stage_switching_cancelled_ c = false → trace_of o = [EvNotifyAll]) ∧
  (stage_switching_cancelled_ c = true →
     (hook_count (trace_of o) = 1 ∧ ∃ rest, trace_of o = EvOnLoadingCancelled x :: rest) ∧
     hook_count cfg.2 ≤ 1 ∧
     Forall (on_instance x) cfg.2 ∧
     Forall (λ p, p ≠ Undefined) cfg.1.1 ∧
     (∀ p0, cfg.1.1 !! 0 = Some p0 → finished p0 = true →
        component_ cfg.1.2 = Some x ∧ stage_ cfg.1.2 = kCreated ∧
        on_loading_cancelled_called_ cfg.1.2 = true) ∧
     (Forall (λ p, finished p = true) cfg.1.1 → hook_count cfg.2 = 1)).
Proof.
  intros Hops Hopss c Hsteps o.
  destruct (never_filled name ops Hops) as [Hnone Hguard]. fold c in Hnone, Hguard.
  destruct (SetComponent_alone c x Hnone) as (H1 & H2 & H3 & H4 & H5 & H6 & H7).
  do 5 (split; [done|]). split; [done|]. intros Hcancelled.
  split; [by apply H6|].
  apply race_invariant_facts.
  eapply race_invariant_steps; [exact Hsteps|]. by apply race_invariant_init.
Qed.

Lemma SetComponent_on_never_filled_cell_witness :
  let c := final_cell (run_calls [OpSetStageSwitchingCancelled true; OpOnLoadingCancelled]
                                 (ComponentInfo_new "a")) in
  let cfg := schedule [0; 1; 1; 0; 0; 0; 1]
               (thread [OpSetComponent (Some X)] :: map thread [[OpOnLoadingCancelled]], c, []) in
  (∃ rest, trace_of (run (SetComponent (Some X)) c) = EvOnLoadingCancelled X :: rest) ∧
  hook_count cfg.2 = 1.
Proof.
  intros c cfg.
  destruct (SetComponent_on_never_filled_cell "a"
              [OpSetStageSwitchingCancelled true; OpOnLoadingCancelled] X
              [[OpOnLoadingCancelled]] cfg) as (_ & _ & _ & _ & _ & _ & H).
  - repeat constructor.
  - repeat constructor.
  - apply schedule_steps.
  - destruct (H eq_refl) as ((_ & Hfirst) & _ & _ & _ & _ & Hall).
    split; [exact Hfirst|]. apply Hall. repeat constructor.
Defined.

(** * Further properties of the cell *)

(** ** [ClearComponent] *)

(** X1. [ClearComponent] on a cell holding a component empties the cell and
    destroys that component, once, between the two log lines; it calls no
    hook and writes no other member; on an empty cell, and hence when called
    again, it does nothing at all. *)
Theorem ClearComponent_destroys_held_component c :
  let o := run ClearComponent c in
  result_of o = Returned tt ∧
  component_ (cell_of o) = None ∧
  cell_of o = set_component_ None c ∧
  trace_of o = match component_ c with
               | Some x => [EvLogInfo "Stopping component"; EvDestroyed x;
                            EvLogInfo "Stopped component"]
               | None => []
               end ∧
  destroyed_count (trace_of o) = held c ∧
  run ClearComponent (cell_of o) = (Returned tt, cell_of o, []).
Proof. split_cell c. by_cases. Qed.

(** ** The hook dispatchers on an empty cell *)

(** X2. On a cell that holds nothing, [OnLoadingCancelled],
    [OnAllComponentsLoaded], [OnAllComponentsAreStopping] and [ClearComponent]
    return at once and leave every member as it is: in particular an early
    [OnLoadingCancelled] does not use up the once-only guard, and the first
    component installed afterwards under cancellation still gets its
    callback. *)
Theorem dispatchers_skip_empty_cell c x :
  component_ c = None →
  run OnLoadingCancelled c = (Returned tt, c, []) ∧
  run OnAllComponentsLoaded c = (Returned tt, c, []) ∧
  run OnAllComponentsAreStopping c = (Returned tt, c, []) ∧
  run ClearComponent c = (Returned tt, c, []) ∧
  (stage_switching_cancelled_ c = true → on_loading_cancelled_called_ c = false →
   hook_count (history_of (run_calls [OpOnLoadingCancelled; OpSetComponent (Some x)] c)) = 1).
Proof.
  split_cell c. simpl. intros ->. repeat split; try done.
  intros -> ->. by_cases.
Qed.

Lemma dispatchers_skip_empty_cell_witness :
  let c := cell_of (run (SetStageSwitchingCancelled true) (ComponentInfo_new "a")) in
  hook_count (history_of (run_calls [OpOnLoadingCancelled; OpSetComponent (Some X)] c)) = 1.
Proof.
  intros c.
  destruct (dispatchers_skip_empty_cell c X eq_refl) as (_ & _ & _ & _ & H).
  exact (H eq_refl eq_refl).
Defined.

(** ** [OnAllComponentsAreStopping] *)

(** X3. On a cell holding [x], [OnAllComponentsAreStopping] calls the hook of [x]
    once and leaves the cell as it was.  A [std::exception] thrown by the hook
    is contained: the call logs one error, made of the text naming the
    component followed by the exception object as the logging library prints
    it, and returns normally.  Only an object that is not a [std::exception]
    gets out. *)
Theorem OnAllComponentsAreStopping_contains_failures c x :
  component_ c = Some x →
  let o := run OnAllComponentsAreStopping c in
  cell_of o = c ∧
  (∃ rest, trace_of o = EvOnAllComponentsAreStopping x :: rest) ∧
  (cb_OnAllComponentsAreStopping x = HookReturns →
     result_of o = Returned tt ∧ trace_of o = [EvOnAllComponentsAreStopping x]) ∧
  (∀ what, cb_OnAllComponentsAreStopping x = HookThrows (StdException what) →
     result_of o = Returned tt ∧
     trace_of o = [EvOnAllComponentsAreStopping x;
                   EvLogErrorException
                     ("OnAllComponentsAreStopping() failed for component "
                      +:+ name_ c +:+ ": ")
                     (StdException what)]) ∧
  (result_of o ≠ Returned tt →
     cb_OnAllComponentsAreStopping x = HookThrows NonStdException ∧
     result_of o = Threw (Propagated NonStdException)).
Proof.
  split_cell c. simpl. intros ->. destruct x as [i h1 h2 h3]. simpl.
  destruct h3 as [|[w|]]; cbn; repeat split; try done; eauto.
  all: by match goal with H : HookThrows _ = HookThrows _ |- _ => injection H as -> end.
Qed.

Lemma OnAllComponentsAreStopping_contains_failures_witness :
  let c := cell_of (run (SetComponent (Some W)) (ComponentInfo_new "dns")) in
  result_of (run OnAllComponentsAreStopping c) = Returned tt ∧
  trace_of (run OnAllComponentsAreStopping c)
  = [EvOnAllComponentsAreStopping W;
     EvLogErrorException "OnAllComponentsAreStopping() failed for component dns: "
                         (StdException "busy")].
Proof.
  intros c.
  destruct (OnAllComponentsAreStopping_contains_failures c W eq_refl) as (_ & _ & _ & H & _).
  exact (H "busy" eq_refl).
Defined.

(** ** The [const] member functions *)

(** X4. The seven [const] member functions leave the cell exactly as it was and
    emit nothing, whatever they return.  The five that do not wait always
    return a value: they never block and never throw.  [HasComponent] is true
    exactly when [GetComponent] is not null. *)
Theorem const_member_functions_only_read op c :
  is_const op = true →
  cell_of (call op c) = c ∧
  trace_of (call op c) = [] ∧
  (waits op = false → ∃ v, result_of (call op c) = Returned v) ∧
  (result_of (call OpHasComponent c) = Returned (VBool true) ↔
   ∃ x, result_of (call OpGetComponent c) = Returned (VPtr (Some x))).
Proof.
  intros Hop. split_cell c. destruct op; try done; by_cases; repeat split; eauto;
    try (intros [? [=]]); try done; try (by intros [=]).
Qed.

Lemma const_member_functions_only_read_witness :
  let c := cell_of (run (SetComponent (Some X)) (ComponentInfo_new "a")) in
  cell_of (call (OpWaitAndGetComponent false) c) = c ∧
  trace_of (call (OpWaitAndGetComponent false) c) = [].
Proof.
  intros c.
  destruct (const_member_functions_only_read (OpWaitAndGetComponent false) c eq_refl)
    as (H1 & H2 & _).
  exact (conj H1 H2).
Defined.

(** ** Waiting for a stage *)


(** ** [SetComponent], every case *)


(** ** The dependency edges *)

Lemma call_it_depends_on op c :
  it_depends_on_ (cell_of (call op c))
  = match op with
    | OpAddItDependsOn s => {[s]} ∪ it_depends_on_ c
    | _ => it_depends_on_ c
    end.
Proof. split_cell c. destruct op; by_cases. Qed.

Lemma call_depends_on_it op c :
  depends_on_it_ (cell_of (call op c))
  = match op with
    | OpAddDependsOnIt s => {[s]} ∪ depends_on_it_ c
    | _ => depends_on_it_ c
    end.
Proof. split_cell c. destruct op; by_cases. Qed.

Lemma run_calls_it_depends_on ops c :
  it_depends_on_ (final_cell (run_calls ops c))
  = it_depends_on_ c ∪ list_to_set (added_it_depends_on ops).
Proof.
  revert c. induction ops as [|op ops IH]; intros c.
  - simpl. by rewrite union_empty_r_L.
  - rewrite run_calls_cons.
    change (it_depends_on_ (final_cell (run_calls ops (cell_of (call op c)))) =
            it_depends_on_ c ∪ list_to_set (added_it_depends_on (op :: ops))).
    rewrite IH, call_it_depends_on. destruct op; simpl; try done.
    by rewrite (comm_L (∪) {[component]}), <- (assoc_L (∪)).
Qed.

Lemma run_calls_depends_on_it ops c :
  depends_on_it_ (final_cell (run_calls ops c))
  = depends_on_it_ c ∪ list_to_set (added_depends_on_it ops).
Proof.
  revert c. induction ops as [|op ops IH]; intros c.
  - simpl. by rewrite union_empty_r_L.
  - rewrite run_calls_cons.
    change (depends_on_it_ (final_cell (run_calls ops (cell_of (call op c)))) =
            depends_on_it_ c ∪ list_to_set (added_depends_on_it (op :: ops))).
    rewrite IH, call_depends_on_it. destruct op; simpl; try done.
    by rewrite (comm_L (∪) {[component]}), <- (assoc_L (∪)).
Qed.

Lemma elem_of_edges (s : string) (d : gset string) (l : list string) :
  s ∈ d ∪ list_to_set l ↔ s ∈ d ∨ s ∈ l.
Proof. by rewrite elem_of_union, elem_of_list_to_set. Qed.

Lemma elem_of_added_it_depends_on s ops :
  s ∈ added_it_depends_on ops ↔ OpAddItDependsOn s ∈ ops.
Proof.
  unfold added_it_depends_on. rewrite list_elem_of_omap. split.
  - intros (op & Hin & Hs). destruct op; simplify_eq. done.
  - intros Hin. by exists (OpAddItDependsOn s).
Qed.

Lemma elem_of_added_depends_on_it s ops :
  s ∈ added_depends_on_it ops ↔ OpAddDependsOnIt s ∈ ops.
Proof.
  unfold added_depends_on_it. rewrite list_elem_of_omap. split.
  - intros (op & Hin & Hs). destruct op; simplify_eq. done.
  - intros Hin. by exists (OpAddDependsOnIt s).
Qed.

(** X7. After any serial history of calls, [CheckItDependsOn(s)] answers true
    exactly when [s] was in the set before or some call of the history was
    [AddItDependsOn(s)]: adding is remembered, adding twice is adding once,
    the order of the additions does not matter, nothing removes an edge, and
    [AddDependsOnIt] does not leak into this set.  The same holds for
    [CheckDependsOnIt] and [AddDependsOnIt]; on a new cell both sets start
    empty. *)
Theorem dependency_edges_after_history ops c s :
  let c' := final_cell (run_calls ops c) in
  (result_of (run (CheckItDependsOn s) c') = Returned true ↔
     s ∈ it_depends_on_ c ∨ OpAddItDependsOn s ∈ ops) ∧
  (result_of (run (CheckDependsOnIt s) c') = Returned true ↔
     s ∈ depends_on_it_ c ∨ OpAddDependsOnIt s ∈ ops) ∧
  (∃ b1 b2, result_of (run (CheckItDependsOn s) c') = Returned b1 ∧
            result_of (run (CheckDependsOnIt s) c') = Returned b2) ∧
  (∀ name, result_of (run (CheckItDependsOn s) (ComponentInfo_new name)) = Returned false ∧
           result_of (run (CheckDependsOnIt s) (ComponentInfo_new name)) = Returned false).
Proof.
  intros c'. unfold result_of. cbn.
  subst c'. rewrite run_calls_it_depends_on, run_calls_depends_on_it.
  rewrite <- elem_of_added_it_depends_on, <- elem_of_added_depends_on_it.
  repeat split; eauto.
  - intros [= Hb%bool_decide_eq_true]. by apply elem_of_edges.
  - intros Hin. f_equal. by apply bool_decide_eq_true, elem_of_edges.
  - intros [= Hb%bool_decide_eq_true]. by apply elem_of_edges.
  - intros Hin. f_equal. by apply bool_decide_eq_true, elem_of_edges.
Qed.

(** ** Interleaved execution: automation for the three accounts *)

Lemma respects_bind R {A B} (p : Prog A) (f : A → Prog B) :
  respects R p → (∀ a, respects R (f a)) → respects R (bind p f).
Proof.
  induction p as [a|e| |T act k IH]; intros Hp Hf; simpl; try done.
  intros c b c' t Hact. destruct (Hp c b c' t Hact) as [HR Hk]. split; [done|]. by apply IH.
Qed.

Ltac solve_only_grows :=
  unfold only_grows; cbn; repeat split; try done; apply union_subseteq_r.

Ltac solve_respects :=
  cbn -[respects];
  first
    [ exact I
    | let c := fresh "c" in
      let Hact := fresh "Hact" in
      cbn [respects]; intros c ? ? ? Hact; split_cell c; cbn in Hact;
      repeat case_match; simplify_eq;
      (split; [solve_only_grows | solve_respects])
    | split_scrutinee; solve_respects ].

Lemma only_grows_body op : respects only_grows (body op).
Proof. destruct op; solve_respects. Qed.

Lemma owns_mono {A} n m (p : Prog A) : n ≤ m → owns n p → owns m p.
Proof.
  revert n m. induction p as [a|e| |T act k IH]; intros n m Hnm; simpl; try done.
  intros H c b c' t Hact. destruct (H c b c' t Hact) as (Hle & Hk).
  split; [lia|]. eapply IH; [|done]. lia.
Qed.

Lemma owns_bind {A B} n m (p : Prog A) (f : A → Prog B) :
  owns n p → (∀ a, owns m (f a)) → owns (n + m) (bind p f).
Proof.
  revert n. induction p as [a|e| |T act k IH]; intros n Hp Hf; simpl; try done.
  - eapply owns_mono; [|apply Hf]. lia.
  - intros c b c' t Hact. destruct (Hp c b c' t Hact) as (Hle & Hk).
    split; [lia|].
    replace (n + m + held c - held c' - destroyed_count t)
      with (n + held c - held c' - destroyed_count t + m) by lia.
    by apply IH.
Qed.

Ltac solve_owns :=
  cbn -[owns];
  first
    [ exact I
    | let c := fresh "c" in
      let Hact := fresh "Hact" in
      cbn [owns]; intros c ? ? ? Hact; split_cell c; cbn in Hact;
      repeat case_match; simplify_eq;
      repeat match goal with x : option ComponentBase |- _ => destruct x end;
      (split; [cbn; lia | solve_owns])
    | split_scrutinee; solve_owns ].

Lemma owns_body op : owns (if installs op then 1 else 0) (body op).
Proof. destruct op; solve_owns. Qed.

Lemma never_null_weaken {A} h (p : Prog A) : never_null false p → never_null h p.
Proof.
  destruct p as [a|e| |T act k]; simpl; try done.
  intros H c b c' t Hact _. by apply (H c b c' t Hact).
Qed.

Lemma never_null_bind {A B} h (p : Prog A) (f : A → Prog B) :
  never_null h p → (∀ a, never_null false (f a)) → never_null h (bind p f).
Proof.
  revert h. induction p as [a|e| |T act k IH]; intros h Hp Hf; simpl; try done.
  - by apply never_null_weaken.
  - intros c b c' t Hact Hh. destruct (Hp c b c' t Hact Hh) as (Hkeep & Hk).
    split; [done|]. by apply IH.
Qed.

Ltac solve_never_null :=
  cbn -[never_null];
  first
    [ exact I
    | let c := fresh "c" in
      let Hact := fresh "Hact" in
      let Hh := fresh "Hh" in
      cbn [never_null]; intros c ? ? ? Hact Hh; split_cell c; cbn in Hact, Hh;
      repeat match goal with x : option ComponentBase |- _ => destruct x end;
      repeat case_match; simplify_eq;
      try (by destruct (Hh eq_refl) as [? [=]]);
      (split; [cbn; by eauto | cbn [component_ set_component_ set_stage_  set_on_loading_cancelled_called_ set_stage_switching_cancelled_ set_it_depends_on_ set_depends_on_it_];
               try first [rewrite bool_decide_true by eauto
                         | rewrite bool_decide_false by (by intros [? [=]])];
               solve_never_null])
    | split_scrutinee; solve_never_null ].

Lemma never_null_body op : empties op = false → never_null false (body op).
Proof.
  destruct op; repeat match goal with x : option ComponentBase |- _ => destruct x end;
    try done; intros _; solve_never_null.
Qed.

Lemma thread_step_respects R {A} (p p' : Prog A) c c' t :
  respects R p → thread_step p c = Some (p', c', t) → R c c' ∧ respects R p'.
Proof.
  destruct p as [a|e| |T act k]; simpl; try done.
  intros Hp Hstep. destruct (act c) as [[[b c1] t1]|] eqn:Hact; [|done].
  injection Hstep as <- <- <-. by apply (Hp c b c1 t1).
Qed.

Lemma thread_step_owns {A} n (p p' : Prog A) c c' t :
  owns n p → thread_step p c = Some (p', c', t) →
  destroyed_count t + held c' ≤ n + held c ∧
  owns (n + held c - held c' - destroyed_count t) p'.
Proof.
  destruct p as [a|e| |T act k]; simpl; try done.
  intros Hp Hstep. destruct (act c) as [[[b c1] t1]|] eqn:Hact; [|done].
  injection Hstep as <- <- <-. by apply (Hp c b c1 t1).
Qed.

Lemma thread_step_never_null {A} (p p' : Prog A) c c' t :
  never_null (bool_decide (is_Some (component_ c))) p →
  thread_step p c = Some (p', c', t) →
  (is_Some (component_ c) → is_Some (component_ c')) ∧
  never_null (bool_decide (is_Some (component_ c'))) p'.
Proof.
  destruct p as [a|e| |T act k]; simpl; try done.
  intros Hp Hstep. destruct (act c) as [[[b c1] t1]|] eqn:Hact; [|done].
  injection Hstep as <- <- <-. apply (Hp c b c1 t1 Hact). by intros ?%bool_decide_eq_true.
Qed.

Lemma never_null_held_mono {A} h h' (p : Prog A) :
  (h = true → h' = true) → never_null h p → never_null h' p.
Proof.
  destruct p as [a|e| |T act k]; simpl; try done.
  intros Hh Hp c b c' t Hact Hh'. apply (Hp c b c' t Hact).
  destruct h; [|done]. intros _. apply Hh'. by apply Hh.
Qed.

Lemma thread_respects ops : respects only_grows (thread ops).
Proof.
  induction ops as [|op ops IH]; [done|].
  simpl. apply respects_bind; [apply only_grows_body|].
  intros v. by apply respects_bind.
Qed.

Lemma thread_owns ops : owns (installs_count ops) (thread ops).
Proof.
  induction ops as [|op ops IH]; [done|].
  simpl. apply owns_bind; [apply owns_body|].
  intros v. rewrite <- (Nat.add_0_r (installs_count ops)). by apply owns_bind.
Qed.

Lemma thread_never_null ops :
  Forall (λ op, empties op = false) ops → never_null false (thread ops).
Proof.
  induction 1 as [|op ops Hop _ IH]; [done|].
  simpl. apply never_null_bind; [by apply never_null_body|].
  intros v. by apply never_null_bind.
Qed.

Lemma only_grows_refl c : only_grows c c.
Proof. by repeat split. Qed.

Lemma only_grows_trans c1 c2 c3 : only_grows c1 c2 → only_grows c2 c3 → only_grows c1 c3.
Proof.
  intros (Hn & Hi & Hd & Hg) (Hn' & Hi' & Hd' & Hg').
  repeat split; [congruence|by etrans..|auto].
Qed.

(** ** Interleaved execution: what no call undoes *)

Lemma step_only_grows cfg cfg' :
  step cfg cfg' → Forall (respects only_grows) cfg.1.1 →
  only_grows cfg.1.2 cfg'.1.2 ∧ Forall (respects only_grows) cfg'.1.1.
Proof.
  intros [l1 p l2 c tr p' c' t Hstep] Hpool. simpl in *.
  apply Forall_app in Hpool as [Hl1 Hl2]. apply Forall_cons in Hl2 as [Hp Hl2].
  destruct (thread_step_respects _ _ _ _ _ _ Hp Hstep) as [HR Hp'].
  split; [done|]. apply Forall_app. split; [done|]. by constructor.
Qed.

Lemma steps_only_grow cfg cfg' :
  steps cfg cfg' → Forall (respects only_grows) cfg.1.1 →
  only_grows cfg.1.2 cfg'.1.2 ∧ Forall (respects only_grows) cfg'.1.1.
Proof.
  induction 1 as [cfg|cfg1 cfg2 cfg3 Hstep _ IH]; intros Hpool.
  - split; [apply only_grows_refl|done].
  - destruct (step_only_grows _ _ Hstep Hpool) as [H12 Hpool2].
    destruct (IH Hpool2) as [H23 Hpool3]. split; [|done]. by eapply only_grows_trans.
Qed.

Lemma threads_respect opss : Forall (respects only_grows) (map thread opss).
Proof. apply Forall_fmap, Forall_true. intros ops. apply thread_respects. Qed.

(** X8. Whatever calls any number of threads make, and however they interleave,
    the name given to the cell at construction is the name it has. *)
Theorem name_never_changes opss c0 cfg :
  steps (map thread opss, c0, []) cfg → name_ cfg.1.2 = name_ c0.
Proof.
  intros Hsteps. by destruct (steps_only_grow _ _ Hsteps (threads_respect opss)) as [[? _] _].
Qed.

Lemma name_never_changes_witness :
  let cfg := schedule [1; 0; 0; 1; 1; 0] (map thread race_threads, ComponentInfo_new "a", []) in
  name_ cfg.1.2 = "a".
Proof.
  intros cfg. apply (name_never_changes race_threads (ComponentInfo_new "a") cfg).
  apply schedule_steps.
Defined.

(** X9. No member function removes a dependency edge: between any two moments of
    any interleaved execution both edge sets only grow, so an edge that
    [CheckItDependsOn] or [CheckDependsOnIt] has reported is reported at every
    later moment. *)
Theorem edges_never_removed opss c0 cfg cfg' s :
  steps (map thread opss, c0, []) cfg → steps cfg cfg' →
  it_depends_on_ cfg.1.2 ⊆ it_depends_on_ cfg'.1.2 ∧
  depends_on_it_ cfg.1.2 ⊆ depends_on_it_ cfg'.1.2 ∧
  (result_of (run (CheckItDependsOn s) cfg.1.2) = Returned true →
   result_of (run (CheckItDependsOn s) cfg'.1.2) = Returned true) ∧
  (result_of (run (CheckDependsOnIt s) cfg.1.2) = Returned true →
   result_of (run (CheckDependsOnIt s) cfg'.1.2) = Returned true).
Proof.
  intros Hsteps Hsteps'.
  destruct (steps_only_grow _ _ Hsteps (threads_respect opss)) as [_ Hpool].
  destruct (steps_only_grow _ _ Hsteps' Hpool) as [(_ & Hi & Hd & _) _].
  repeat split; [done..| |]; unfold result_of; cbn;
    intros [= Hb%bool_decide_eq_true]; f_equal; apply bool_decide_eq_true; auto.
Qed.

Lemma edges_never_removed_witness :
  let threads := [[OpAddItDependsOn "logging"; OpSetComponent (Some X)];
                  [OpAddDependsOnIt "http"; OpExtractComponent; OpAddItDependsOn "dns"]] in
  let cfg := schedule [0; 1] (map thread threads, ComponentInfo_new "a", []) in
  let cfg' := schedule [0; 1; 1; 0] cfg in
  result_of (run (CheckItDependsOn "logging") cfg.1.2) = Returned true ∧
  result_of (run (CheckItDependsOn "logging") cfg'.1.2) = Returned true.
Proof.
  intros threads cfg cfg'. split; [reflexivity|].
  refine (proj1 (proj2 (proj2
    (edges_never_removed threads (ComponentInfo_new "a") cfg cfg' "logging" _ _))) eq_refl);
    apply schedule_steps.
Defined.

Lemma step_after_callback cfg cfg' :
  step cfg cfg' →
  Forall (guarded 0) cfg.1.1 → on_loading_cancelled_called_ cfg.1.2 = true →
  Forall (guarded 0) cfg'.1.1 ∧ on_loading_cancelled_called_ cfg'.1.2 = true ∧
  hook_count cfg'.2 = hook_count cfg.2.
Proof.
  intros [l1 p l2 c tr p' c' t Hstep] Hpool Hflag. simpl in *.
  apply Forall_app in Hpool as [Hl1 Hl2]. apply Forall_cons in Hl2 as [Hp Hl2].
  destruct (guarded_thread_step 0 p p' c c' t Hp Hstep) as (Hfl & Hle & Hp').
  unfold won in *. rewrite Hflag in *. simpl in *.
  assert (hook_count t = 0) as Ht by lia. rewrite Ht in Hp'.
  split; [|split; [by apply Hfl|]].
  - apply Forall_app. split; [done|]. by constructor.
  - rewrite hook_count_app. lia.
Qed.

Lemma steps_after_callback cfg cfg' :
  steps cfg cfg' →
  Forall (guarded 0) cfg.1.1 → on_loading_cancelled_called_ cfg.1.2 = true →
  Forall (guarded 0) cfg'.1.1 ∧ on_loading_cancelled_called_ cfg'.1.2 = true ∧
  hook_count cfg'.2 = hook_count cfg.2.
Proof.
  induction 1 as [cfg|cfg1 cfg2 cfg3 Hstep _ IH]; intros Hpool Hflag; [done|].
  destruct (step_after_callback _ _ Hstep Hpool Hflag) as (Hpool2 & Hflag2 & Hcount2).
  destruct (IH Hpool2 Hflag2) as (Hpool3 & Hflag3 & Hcount3).
  split; [done|]. split; [done|]. congruence.
Qed.

(** X10. A cell whose guard is already up never makes the cancellation callback
    again, whoever calls whatever in whatever order, and whichever component
    is installed later; and the guard stays up. *)
Theorem callback_never_made_again opss c0 cfg :
  on_loading_cancelled_called_ c0 = true →
  steps (map thread opss, c0, []) cfg →
  hook_count cfg.2 = 0 ∧ on_loading_cancelled_called_ cfg.1.2 = true.
Proof.
  intros Hc0 Hsteps.
  destruct (steps_after_callback _ _ Hsteps) as (_ & Hflag & Hcount); [|done|done].
  apply Forall_fmap, Forall_true. intros ops. apply guarded_thread.
Qed.

Lemma callback_never_made_again_witness :
  let c0 := final_cell (run_calls [OpSetStageSwitchingCancelled true; OpSetComponent (Some X);
                                   OpExtractComponent] (ComponentInfo_new "a")) in
  let cfg := schedule [0; 1; 0; 1; 0; 1; 0; 1; 0]
               (map thread [[OpSetComponent (Some Y)]; [OpOnLoadingCancelled]], c0, []) in
  component_ cfg.1.2 = Some Y ∧ hook_count cfg.2 = 0.
Proof.
  intros c0 cfg. split; [reflexivity|].
  refine (proj1 (callback_never_made_again
                   [[OpSetComponent (Some Y)]; [OpOnLoadingCancelled]] c0 cfg eq_refl _)).
  apply schedule_steps.
Defined.

(** ** Interleaved execution: no component is destroyed twice *)

Lemma destroyed_count_app t1 t2 :
  destroyed_count (t1 ++ t2) = destroyed_count t1 + destroyed_count t2.
Proof. apply sum_list_with_app. Qed.

Lemma ownership_invariant_init opss c :
  ownership_invariant (held c + sum_list_with installs_count opss) (map thread opss, c, []).
Proof.
  exists (map installs_count opss). split; cbn [fst snd].
  - induction opss as [|ops opss IH]; simpl; constructor; [apply thread_owns|done].
  - assert (sum_list (map installs_count opss) = sum_list_with installs_count opss) as ->.
    { induction opss as [|ops opss IH]; simpl; [done|]. by rewrite IH. }
    simpl. lia.
Qed.

Lemma ownership_invariant_step total cfg cfg' :
  step cfg cfg' → ownership_invariant total cfg → ownership_invariant total cfg'.
Proof.
  intros [l1 p l2 c tr p' c' t Hstep] (budgets & Hg & Hsum). simpl in *.
  apply Forall2_app_inv_r in Hg as (b1 & b2' & Hg1 & Hg2 & ->).
  apply Forall2_cons_inv_r in Hg2 as (n & b2 & Hp & Hg2 & ->).
  destruct (thread_step_owns n p p' c c' t Hp Hstep) as (Hle & Hp').
  exists (b1 ++ (n + held c - held c' - destroyed_count t) :: b2). split; simpl.
  - apply Forall2_app; [done|]. by constructor.
  - rewrite destroyed_count_app. rewrite !sum_list_with_app in *. simpl in *. lia.
Qed.

Lemma ownership_invariant_steps total cfg cfg' :
  steps cfg cfg' → ownership_invariant total cfg → ownership_invariant total cfg'.
Proof. induction 1; eauto using ownership_invariant_step. Qed.

Lemma installs_count_zero ops :
  Forall (λ op, installs op = false) ops → installs_count ops = 0.
Proof.
  unfold installs_count. induction 1 as [|op ops Hop _ IH]; [done|].
  cbn [sum_list_with]. by rewrite Hop, IH.
Qed.

Lemma installs_counts_zero opss :
  Forall (Forall (λ op, installs op = false)) opss → sum_list_with installs_count opss = 0.
Proof.
  induction 1 as [|ops opss Hops _ IH]; [done|].
  cbn [sum_list_with]. by rewrite IH, installs_count_zero.
Qed.

(** X11. Components are conserved under every interleaving: at every moment the
    components destroyed so far, plus the one the cell holds, are no more
    than the one the cell held at the start plus the [SetComponent] calls the
    threads make with an instance.  With no such call, at most one component
    is ever destroyed, however many threads run [ClearComponent],
    [ExtractComponent] or [SetComponent(nullptr)] at once. *)
Theorem no_component_destroyed_twice opss c0 cfg :
  steps (map thread opss, c0, []) cfg →
  destroyed_count cfg.2 + held cfg.1.2 ≤ held c0 + sum_list_with installs_count opss ∧
  (Forall (Forall (λ op, installs op = false)) opss → destroyed_count cfg.2 ≤ 1).
Proof.
  intros Hsteps.
  destruct (ownership_invariant_steps _ _ _ Hsteps (ownership_invariant_init opss c0))
    as (budgets & _ & Hsum).
  split; [lia|]. intros Hno.
  pose proof (installs_counts_zero opss Hno). pose proof (held_le_1 c0). lia.
Qed.

Lemma no_component_destroyed_twice_witness :
  let c0 := cell_of (run (SetComponent (Some X)) (ComponentInfo_new "a")) in
  let threads := [[OpClearComponent]; [OpClearComponent]; [OpSetComponent None]] in
  let cfg := schedule [0; 1; 1; 2; 0; 0; 1; 0; 2; 0; 0; 1] (map thread threads, c0, []) in
  destroyed_count cfg.2 ≤ 1.
Proof.
  intros c0 threads cfg.
  destruct (no_component_destroyed_twice threads c0 cfg) as [_ H].
  - apply schedule_steps.
  - apply H. repeat constructor.
Defined.

(** ** Interleaved execution: no call through a null pointer *)

Lemma step_never_null cfg cfg' :
  step cfg cfg' →
  Forall (never_null (bool_decide (is_Some (component_ cfg.1.2)))) cfg.1.1 →
  Forall (never_null (bool_decide (is_Some (component_ cfg'.1.2)))) cfg'.1.1 ∧
  (is_Some (component_ cfg.1.2) → is_Some (component_ cfg'.1.2)).
Proof.
  intros [l1 p l2 c tr p' c' t Hstep] Hpool. simpl in *.
  apply Forall_app in Hpool as [Hl1 Hl2]. apply Forall_cons in Hl2 as [Hp Hl2].
  destruct (thread_step_never_null p p' c c' t Hp Hstep) as [Hk Hp'].
  assert (bool_decide (is_Some (component_ c)) = true →
          bool_decide (is_Some (component_ c')) = true) as Hmono.
  { intros ?%bool_decide_eq_true. by apply bool_decide_eq_true, Hk. }
  split; [|done]. apply Forall_app. split; [|constructor; [done|]].
  - eapply Forall_impl; [exact Hl1|]. intros q. by apply never_null_held_mono.
  - eapply Forall_impl; [exact Hl2|]. intros q. by apply never_null_held_mono.
Qed.

Lemma steps_never_null cfg cfg' :
  steps cfg cfg' →
  Forall (never_null (bool_decide (is_Some (component_ cfg.1.2)))) cfg.1.1 →
  Forall (never_null (bool_decide (is_Some (component_ cfg'.1.2)))) cfg'.1.1 ∧
  (is_Some (component_ cfg.1.2) → is_Some (component_ cfg'.1.2)).
Proof.
  induction 1 as [cfg|cfg1 cfg2 cfg3 Hstep _ IH]; intros Hpool; [done|].
  destruct (step_never_null _ _ Hstep Hpool) as [Hpool2 Hk].
  destruct (IH Hpool2) as [Hpool3 Hk']. split; [done|]. auto.
Qed.

(** X12. As long as no thread empties the cell (no [ExtractComponent], no
    [ClearComponent], no [SetComponent(nullptr)]), no interleaving of any
    other calls ever calls a hook through a null [component_]: the check made
    by [HasComponent] stays valid until the call is made.  A cell that holds
    a component keeps holding one. *)
Theorem hooks_never_called_through_null opss c0 cfg :
  Forall (Forall (λ op, empties op = false)) opss →
  steps (map thread opss, c0, []) cfg →
  Forall (λ p, p ≠ Undefined) cfg.1.1 ∧
  (is_Some (component_ c0) → is_Some (component_ cfg.1.2)).
Proof.
  intros Hops Hsteps.
  destruct (steps_never_null _ _ Hsteps) as [Hpool Hkeep].
  { simpl. apply Forall_fmap. eapply Forall_impl; [exact Hops|].
    intros ops Hops'. by apply never_null_weaken, thread_never_null. }
  split; [|done].
  eapply Forall_impl; [exact Hpool|]. by intros p Hp ->.
Qed.

Lemma hooks_never_called_through_null_witness :
  let c0 := cell_of (run (SetComponent (Some W)) (ComponentInfo_new "a")) in
  let threads := [[OpOnAllComponentsAreStopping; OpOnLoadingCancelled];
                  [OpSetComponent (Some X); OpSetStageSwitchingCancelled true]] in
  let cfg := schedule [0; 1; 0; 1; 0; 1; 0; 1; 0; 1; 0] (map thread threads, c0, []) in
  Forall (λ p, p ≠ Undefined) cfg.1.1.
Proof.
  intros c0 threads cfg.
  refine (proj1 (hooks_never_called_through_null threads c0 cfg _ _)).
  - repeat constructor.
  - apply schedule_steps.
Defined.

(** The hypothesis is needed: a thread that extracts between the check and
    the call makes the other call through null. *)
Example extraction_races_with_hook :
  let c0 := cell_of (run (SetComponent (Some X)) (ComponentInfo_new "a")) in
  let cfg := schedule [0; 1; 0]
               (map thread [[OpOnAllComponentsLoaded]; [OpExtractComponent]], c0, []) in
  cfg.1.1 !! 0 = Some Undefined.
Proof. reflexivity. Qed.

(** * Properties of [MongoCache::Update] *)

Import MongoCache.

Section MongoCacheProperties.
Context (T : MongoCacheTraits).
Implicit Types (docs : list (Document T)) (m : DataType T) (type : UpdateType).

(** The map the loop builds from the objects of the documents it passes. *)
Lemma read_documents_outcome type docs m :
  match (read_documents type docs m).2 with
  | inl m' =>
      Forall (λ doc, passable doc = true) docs ∧
      ∀ k, m' !! k =
           match type with
           | kFull => match m !! k with
                      | Some o => Some o
                      | None => head (with_key k (objects docs))
                      end
           | kIncremental => match last (with_key k (objects docs)) with
                             | Some o => Some o
                             | None => m !! k
                             end
           end
  | inr t =>
      ∃ pre doc post, docs = pre ++ doc :: post ∧
        Forall (λ doc, passable doc = true) pre ∧
        passable doc = false ∧ kDeserializeFunc T doc = inr t
  end.
Proof.
  revert m. induction docs as [|doc docs IH]; intros m.
  - simpl. split; [done|]. intros k. destruct type; simpl; by destruct (m !! k).
  - simpl. unfold passable, objects, with_key in *. cbn [omap list_omap].
    destruct (kDeserializeFunc T doc) as [o|[what|]] eqn:Hdoc.
    + destruct (is_incremental type || bool_decide (m !! kKeyField T o = None)) eqn:Hins.
      * specialize (IH (<[kKeyField T o := o]> m)).
        destruct (read_documents type docs (<[kKeyField T o:=o]> m)) as [e [m'|t]]; simpl in *.
        -- destruct IH as [Hall Hlook]. split.
           { constructor; [by rewrite Hdoc|done]. }
           intros k. rewrite Hlook. rewrite filter_cons.
           destruct type; simpl in Hins.
           ++ apply bool_decide_eq_true in Hins.
              case_decide as Hk.
              ** subst k. rewrite lookup_insert_eq, Hins. done.
              ** by rewrite lookup_insert_ne.
           ++ case_decide as Hk.
              ** subst k. rewrite lookup_insert_eq.
                 rewrite last_cons. by destruct (last _).
              ** by rewrite lookup_insert_ne.
        -- destruct IH as (pre & d & post & -> & Hpre & Hd & Ht).
           exists (doc :: pre), d, post. repeat split; try done.
           constructor; [by rewrite Hdoc|done].
      * specialize (IH m).
        destruct (read_documents type docs m) as [e [m'|t]]; simpl in *.
        -- destruct IH as [Hall Hlook]. split.
           { constructor; [by rewrite Hdoc|done]. }
           intros k. rewrite Hlook. rewrite filter_cons.
           destruct type; simpl in Hins; [|done].
           apply bool_decide_eq_false in Hins.
           case_decide as Hk; [|done].
           subst k. destruct (m !! kKeyField T o); done.
        -- destruct IH as (pre & d & post & -> & Hpre & Hd & Ht).
           exists (doc :: pre), d, post. repeat split; try done.
           constructor; [by rewrite Hdoc|done].
    + destruct (kAreInvalidDocumentsSkipped T) eqn:Hskip.
      * specialize (IH m).
        destruct (read_documents type docs m) as [e [m'|t]]; simpl in *.
        -- destruct IH as [Hall Hlook]. split; [|done].
           constructor; [by rewrite Hdoc|done].
        -- destruct IH as (pre & d & post & -> & Hpre & Hd & Ht).
           exists (doc :: pre), d, post. repeat split; try done.
           constructor; [by rewrite Hdoc|done].
      * simpl. exists [], doc, docs. repeat split; try done. by rewrite Hdoc.
    + simpl. exists [], doc, docs. repeat split; try done. by rewrite Hdoc.
Qed.

Lemma read_documents_effects type docs m :
  let e := (read_documents type docs m).1 in
  Forall (λ x, is_finish x = false) e ∧
  match (read_documents type docs m).2 with
  | inl m' =>
      documents_read e = length docs ∧
      parse_failures e = count_invalid docs ∧
      errors_logged e + (if is_incremental type then 0 else size m')
      = count_invalid docs + (if is_incremental type then 0 else length (objects docs) + size m)
  | inr t =>
      ∃ pre doc post, docs = pre ++ doc :: post ∧
        Forall (λ doc, passable doc = true) pre ∧
        passable doc = false ∧ kDeserializeFunc T doc = inr t ∧
        documents_read e = S (length pre) ∧
        parse_failures e = count_invalid pre + (match t with StdException _ => 1 | NonStdException => 0 end)
  end.
Proof.
  revert m. induction docs as [|doc docs IH]; intros m.
  - simpl. repeat split; try done; by destruct (is_incremental type).
  - simpl. unfold passable, objects, count_invalid, invalid in *. cbn [omap list_omap sum_list_with].
    destruct (kDeserializeFunc T doc) as [o|[what|]] eqn:Hdoc.
    + destruct (is_incremental type || bool_decide (m !! kKeyField T o = None)) eqn:Hins.
      * specialize (IH (<[kKeyField T o := o]> m)).
        destruct (read_documents type docs (<[kKeyField T o:=o]> m)) as [e [m'|t]]; simpl in *.
        -- destruct IH as (Hfin & Hread & Hfail & Herr). split; [by constructor|].
           unfold documents_read, parse_failures, errors_logged in *. simpl.
           repeat split; [lia..|].
           destruct type; simpl in *; [|lia].
           apply bool_decide_eq_true in Hins.
           rewrite map_size_insert_None in Herr by done. lia.
        -- destruct IH as (Hfin & pre & d & post & -> & Hpre & Hd & Ht & Hread & Hfail).
           split; [by constructor|].
           exists (doc :: pre), d, post. unfold documents_read, parse_failures in *. simpl.
           rewrite Hdoc. repeat split; try done; try lia.
           constructor; [by rewrite Hdoc|done].
      * specialize (IH m).
        destruct (read_documents type docs m) as [e [m'|t]]; simpl in *.
        -- destruct IH as (Hfin & Hread & Hfail & Herr). split; [by repeat constructor|].
           unfold documents_read, parse_failures, errors_logged in *. simpl.
           repeat split; [lia..|].
           destruct type; simpl in *; [lia|done].
        -- destruct IH as (Hfin & pre & d & post & -> & Hpre & Hd & Ht & Hread & Hfail).
           split; [by repeat constructor|].
           exists (doc :: pre), d, post. unfold documents_read, parse_failures in *. simpl.
           rewrite Hdoc. repeat split; try done; try lia.
           constructor; [by rewrite Hdoc|done].
    + destruct (kAreInvalidDocumentsSkipped T) eqn:Hskip.
      * specialize (IH m).
        destruct (read_documents type docs m) as [e [m'|t]]; simpl in *.
        -- destruct IH as (Hfin & Hread & Hfail & Herr). split; [by repeat constructor|].
           unfold documents_read, parse_failures, errors_logged in *. simpl.
           repeat split; lia.
        -- destruct IH as (Hfin & pre & d & post & -> & Hpre & Hd & Ht & Hread & Hfail).
           split; [by repeat constructor|].
           exists (doc :: pre), d, post. unfold documents_read, parse_failures in *. simpl.
           rewrite Hdoc. repeat split; try done; try lia.
           constructor; [by rewrite Hdoc|done].
      * simpl. split; [by repeat constructor|]. exists [], doc, docs.
        repeat split; try done. by rewrite Hdoc.
    + simpl. split; [by repeat constructor|]. exists [], doc, docs.
      repeat split; try done. by rewrite Hdoc.
Qed.

Implicit Types (self : State T) (last_update now : time_point).

(** The three ways [Update] ends. *)
Lemma Update_cases self type last_update now :
  let cursor := cursor_of self type last_update in
  let o := Update self type last_update now in
  (type = kIncremental ∧ cursor = [] ∧
   o = (UpdateReturned, self,
        [EfLogInfo ("No changes in cache " +:+ kName T); FinishNoChanges])) ∨
  (is_incremental type && bool_decide (cursor = []) = false ∧
   ∃ e m', read_documents type cursor (GetData self type) = (e, inl m') ∧
     o = (UpdateReturned, Build_State T (mongo_collection_ self) m',
          e ++ [Finish (size m')])) ∨
  (is_incremental type && bool_decide (cursor = []) = false ∧
   ∃ e t, read_documents type cursor (GetData self type) = (e, inr t) ∧
     o = (UpdateThrew t, self, e)).
Proof.
  intros cursor o. subst o. unfold Update. fold (cursor_of self type last_update). fold cursor.
  destruct (is_incremental type && bool_decide (cursor = [])) eqn:Hempty.
  - left. apply andb_true_iff in Hempty as [Hi He%bool_decide_eq_true].
    by destruct type.
  - right. destruct (read_documents type cursor (GetData self type)) as [e [m'|t]];
      [left|right]; (split; [done|]); by eexists _, _.
Qed.

(** X13. With nothing in the cursor, an incremental update leaves the published
    map alone and reports no changes; a full update publishes the empty map
    and reports size 0. *)
Theorem Update_without_documents self type last_update now :
  cursor_of self type last_update = [] →
  Update self type last_update now =
  match type with
  | kIncremental =>
      (UpdateReturned, self,
       [EfLogInfo ("No changes in cache " +:+ kName T); FinishNoChanges])
  | kFull =>
      (UpdateReturned, Build_State T (mongo_collection_ self) ∅, [Finish 0])
  end.
Proof.
  intros Hcursor. unfold Update. fold (cursor_of self type last_update).
  rewrite Hcursor. by destruct type.
Qed.

(** X14. [Update] returns exactly when the loop gets past every document of the
    cursor.  When it throws, the published map is the one from before the
    call and no [Finish] is reported.  With invalid documents skipped, and no
    deserializer throwing anything but a [std::exception], it always
    returns. *)
Theorem Update_all_or_nothing self type last_update now :
  let o := Update self type last_update now in
  (o.1.1 = UpdateReturned ↔
     Forall (λ doc, passable doc = true) (cursor_of self type last_update)) ∧
  (o.1.1 ≠ UpdateReturned →
     o.1.2 = self ∧ Forall (λ x, is_finish x = false) o.2) ∧
  (kAreInvalidDocumentsSkipped T = true →
   Forall (λ doc, kDeserializeFunc T doc ≠ inr NonStdException)
          (cursor_of self type last_update) →
   o.1.1 = UpdateReturned).
Proof.
  intros o.
  assert (o.1.1 = UpdateReturned ↔
          Forall (λ doc, passable doc = true) (cursor_of self type last_update)) as Hiff.
  { destruct (Update_cases self type last_update now)
      as [(_ & -> & Ho)|[(Hne & e & m' & Hread & Ho)|(Hne & e & t & Hread & Ho)]];
      fold o in Ho; rewrite Ho; simpl; [done| |].
    - pose proof (read_documents_outcome type (cursor_of self type last_update)
                    (GetData self type)) as Hout.
      rewrite Hread in Hout. by destruct Hout.
    - pose proof (read_documents_outcome type (cursor_of self type last_update)
                    (GetData self type)) as Hout.
      rewrite Hread in Hout. simpl in Hout.
      destruct Hout as (pre & doc & post & Hdocs & _ & Hdoc & _).
      split; [done|]. rewrite Hdocs. intros [_ Hall]%Forall_app.
      apply Forall_cons in Hall as [Hdoc' _]. congruence. }
  split; [done|]. split.
  - destruct (Update_cases self type last_update now)
      as [(_ & _ & Ho)|[(Hne & e & m' & Hread & Ho)|(Hne & e & t & Hread & Ho)]];
      fold o in Ho; rewrite Ho; simpl; [done..|].
    intros _. split; [done|].
    pose proof (read_documents_effects type (cursor_of self type last_update)
                  (GetData self type)) as [Hfin _].
    by rewrite Hread in Hfin.
  - intros Hskip Hstd. apply Hiff.
    eapply Forall_impl; [exact Hstd|]. intros doc. unfold passable.
    by destruct (kDeserializeFunc T doc) as [obj|[what|]].
Qed.

(** X15. When [Update] throws, it is at the first document the loop cannot get
    past, with the very object the deserializer threw; the documents counted
    as read are those before it and itself, and it is counted as a parse
    failure exactly when it threw a [std::exception]. *)
Theorem Update_stops_at_first_failure self type last_update now t :
  let o := Update self type last_update now in
  o.1.1 = UpdateThrew t →
  ∃ pre doc post,
    cursor_of self type last_update = pre ++ doc :: post ∧
    Forall (λ doc, passable doc = true) pre ∧
    passable doc = false ∧
    kDeserializeFunc T doc = inr t ∧
    documents_read o.2 = S (length pre) ∧
    parse_failures o.2
    = count_invalid pre + match t with StdException _ => 1 | NonStdException => 0 end.
Proof.
  intros o.
  destruct (Update_cases self type last_update now)
    as [(_ & _ & Ho)|[(Hne & e & m' & Hread & Ho)|(Hne & e & t' & Hread & Ho)]];
    fold o in Ho; rewrite Ho; simpl; [done..|].
  intros [= ->].
  pose proof (read_documents_effects type (cursor_of self type last_update)
                (GetData self type)) as [_ Heff].
  by rewrite Hread in Heff.
Qed.

Lemma full_update_data self last_update now k :
  let o := Update self kFull last_update now in
  o.1.1 = UpdateReturned →
  data o.1.2 !! k = head (with_key k (objects (cursor_of self kFull last_update))).
Proof.
  intros o.
  destruct (Update_cases self kFull last_update now)
    as [([=] & _)|[(Hne & e & m' & Hread & Ho)|(Hne & e & t' & Hread & Ho)]];
    fold o in Ho; rewrite Ho; simpl; [|done].
  intros _.
  pose proof (read_documents_outcome kFull (cursor_of self kFull last_update)
                (GetData self kFull)) as Hout.
  rewrite Hread in Hout. destruct Hout as [_ Hlook]. rewrite Hlook. simpl.
  by rewrite lookup_empty.
Qed.

(** X16. After a full update that returns, the published map holds, under each
    key, the first object of the cursor with that key, and nothing else: what
    was published before plays no part, and later duplicates lose. *)
Theorem Update_full_lookup self last_update now k :
  let o := Update self kFull last_update now in
  o.1.1 = UpdateReturned →
  data o.1.2 !! k = head (with_key k (objects (cursor_of self kFull last_update))).
Proof. apply full_update_data. Qed.

Lemma incremental_update_data self last_update now k :
  let o := Update self kIncremental last_update now in
  o.1.1 = UpdateReturned →
  data o.1.2 !! k
  = match last (with_key k (objects (cursor_of self kIncremental last_update))) with
    | Some obj => Some obj
    | None => data self !! k
    end ∧
  (is_Some (data self !! k) → is_Some (data o.1.2 !! k)).
Proof.
  intros o Hret.
  assert (data o.1.2 !! k
          = match last (with_key k (objects (cursor_of self kIncremental last_update))) with
            | Some obj => Some obj
            | None => data self !! k
            end) as Hlook.
  { destruct (Update_cases self kIncremental last_update now)
      as [(_ & Hempty & Ho)|[(Hne & e & m' & Hread & Ho)|(Hne & e & t' & Hread & Ho)]];
      fold o in Ho, Hret; rewrite Ho in *; simpl in *; [by rewrite Hempty| |done].
    pose proof (read_documents_outcome kIncremental
                  (cursor_of self kIncremental last_update) (data self)) as Hout.
    rewrite Hread in Hout. destruct Hout as [_ Hlook]. by rewrite Hlook. }
  split; [done|]. rewrite Hlook. by destruct (last _).
Qed.

(** X17. After an incremental update that returns, the published map holds, under
    each key, the last object of the cursor with that key, and what was
    published before under the keys the cursor does not mention: no key is
    ever dropped. *)
Theorem Update_incremental_lookup self last_update now k :
  let o := Update self kIncremental last_update now in
  o.1.1 = UpdateReturned →
  data o.1.2 !! k
  = match last (with_key k (objects (cursor_of self kIncremental last_update))) with
    | Some obj => Some obj
    | None => data self !! k
    end ∧
  (is_Some (data self !! k) → is_Some (data o.1.2 !! k)).
Proof. apply incremental_update_data. Qed.

(** X18. Every call that returns counts each document of the cursor as read, once,
    counts as parse failures exactly the documents whose deserializer threw,
    and ends with the one finishing report: the size of the map it has just
    published, or "no changes" for an incremental update that found
    nothing. *)
Theorem Update_statistics self type last_update now :
  let o := Update self type last_update now in
  let cursor := cursor_of self type last_update in
  o.1.1 = UpdateReturned →
  documents_read o.2 = length cursor ∧
  parse_failures o.2 = count_invalid cursor ∧
  ∃ e, Forall (λ x, is_finish x = false) e ∧
       o.2 = e ++ [if is_incremental type && bool_decide (cursor = [])
                   then FinishNoChanges else Finish (size (data o.1.2))].
Proof.
  intros o cursor.
  destruct (Update_cases self type last_update now)
    as [(-> & Hempty & Ho)|[(Hne & e & m' & Hread & Ho)|(Hne & e & t' & Hread & Ho)]];
    fold o in Ho; fold cursor in Hempty || fold cursor in Hread;
    rewrite Ho; simpl; [| |done]; intros _.
  - rewrite Hempty. simpl. repeat split.
    exists [EfLogInfo ("No changes in cache " +:+ kName T)]. split; [by repeat constructor|done].
  - pose proof (read_documents_effects type cursor (GetData self type)) as [Hfin Heff].
    rewrite Hread in Hfin, Heff. simpl in *. destruct Heff as (Hr & Hf & _).
    unfold documents_read, parse_failures in *. rewrite !sum_list_with_app. simpl.
    repeat split; [lia..|].
    exists e. split; [done|].
    fold cursor in Hne. by rewrite Hne.
Qed.

(** X19. A full update that returns accounts for every object of the cursor: it
    is published, or reported as a duplicate key; so the errors logged are
    the invalid documents plus the duplicates.  An incremental update
    overwrites and reports no duplicate. *)
Theorem Update_reports_duplicates self type last_update now :
  let o := Update self type last_update now in
  let cursor := cursor_of self type last_update in
  o.1.1 = UpdateReturned →
  match type with
  | kFull => errors_logged o.2 + size (data o.1.2)
             = count_invalid cursor + length (objects cursor)
  | kIncremental => errors_logged o.2 = count_invalid cursor
  end.
Proof.
  intros o cursor.
  destruct (Update_cases self type last_update now)
    as [(-> & Hempty & Ho)|[(Hne & e & m' & Hread & Ho)|(Hne & e & t' & Hread & Ho)]];
    fold o in Ho; fold cursor in Hempty || fold cursor in Hread;
    rewrite Ho; simpl; [| |done]; intros _.
  - by rewrite Hempty.
  - pose proof (read_documents_effects type cursor (GetData self type)) as [_ Heff].
    rewrite Hread in Heff. simpl in Heff. destruct Heff as (_ & _ & Herr).
    unfold errors_logged in *. rewrite sum_list_with_app. simpl.
    destruct type; simpl in *; [|lia]. rewrite map_size_empty in Herr. lia.
Qed.

(** X20. The published map stays keyed by [kKeyField]: after a full update that
    returns every object is stored under its own key, and an incremental
    update keeps that true when it was true before. *)
Theorem Update_keeps_cache_keyed self type last_update now :
  let o := Update self type last_update now in
  o.1.1 = UpdateReturned →
  type = kFull ∨ well_keyed (data self) →
  well_keyed (data o.1.2).
Proof.
  intros o Hret Hpre k obj Hk. subst o. destruct type.
  - rewrite (full_update_data self last_update now k Hret) in Hk.
    apply head_Some_elem_of, list_elem_of_filter in Hk as [Hkey _]. done.
  - destruct (incremental_update_data self last_update now k Hret) as [Hlook _].
    rewrite Hlook in Hk. destruct Hpre as [[=]|Hpre].
    destruct (last _) as [obj'|] eqn:Hlast.
    + injection Hk as ->. by apply last_Some_elem_of, list_elem_of_filter in Hlast as [Hkey _].
    + by apply Hpre.
Qed.

End MongoCacheProperties.

(** ** The theorems at work on sample documents *)

Lemma Update_without_documents_witness :
  let self := sample_state false [] {["z" := ("z", 9)]} in
  data (Update self kIncremental 5%Z 7%Z).1.2 = {["z" := ("z", 9)]} ∧
  data (Update self kFull 5%Z 7%Z).1.2 = ∅.
Proof.
  intros self. split.
  - by rewrite (Update_without_documents (sample_traits false) self kIncremental 5%Z 7%Z eq_refl).
  - by rewrite (Update_without_documents (sample_traits false) self kFull 5%Z 7%Z eq_refl).
Defined.

Lemma Update_stops_at_first_failure_witness :
  let self := sample_state false [Good "a" 1; Broken "x"; Good "b" 2] ∅ in
  ∃ pre doc post,
    [Good "a" 1; Broken "x"; Good "b" 2] = pre ++ doc :: post ∧
    kDeserializeFunc (sample_traits false) doc = inr (StdException "bad bson") ∧
    documents_read (Update self kFull 0%Z 0%Z).2 = S (length pre).
Proof.
  intros self.
  destruct (Update_stops_at_first_failure (sample_traits false) self kFull 0%Z 0%Z
              (StdException "bad bson") eq_refl)
    as (pre & doc & post & Hdocs & _ & _ & Hdoc & Hread & _).
  by exists pre, doc, post.
Defined.

Lemma Update_full_lookup_witness :
  let self := sample_state true [Good "a" 1; Broken "x"; Good "b" 2; Good "a" 3]
                {["z" := ("z", 9)]} in
  data (Update self kFull 0%Z 0%Z).1.2 !! "a" = Some ("a", 1) ∧
  data (Update self kFull 0%Z 0%Z).1.2 !! "z" = None.
Proof.
  intros self. split.
  - exact (Update_full_lookup (sample_traits true) self 0%Z 0%Z "a" eq_refl).
  - exact (Update_full_lookup (sample_traits true) self 0%Z 0%Z "z" eq_refl).
Defined.

Lemma Update_incremental_lookup_witness :
  let self := sample_state true [Good "a" 1; Broken "x"; Good "b" 2; Good "a" 3]
                {["z" := ("z", 9)]} in
  data (Update self kIncremental 0%Z 0%Z).1.2 !! "a" = Some ("a", 3) ∧
  data (Update self kIncremental 0%Z 0%Z).1.2 !! "z" = Some ("z", 9).
Proof.
  intros self. split.
  - exact (proj1 (Update_incremental_lookup (sample_traits true) self 0%Z 0%Z "a" eq_refl)).
  - exact (proj1 (Update_incremental_lookup (sample_traits true) self 0%Z 0%Z "z" eq_refl)).
Defined.

Lemma Update_statistics_witness :
  let self := sample_state true [Good "a" 1; Broken "x"; Good "b" 2; Good "a" 3] ∅ in
  documents_read (Update self kFull 0%Z 0%Z).2 = 4 ∧
  parse_failures (Update self kFull 0%Z 0%Z).2 = 1.
Proof.
  intros self.
  destruct (Update_statistics (sample_traits true) self kFull 0%Z 0%Z eq_refl)
    as (Hread & Hfail & _).
  exact (conj Hread Hfail).
Defined.

Lemma Update_reports_duplicates_witness :
  let self := sample_state true [Good "a" 1; Broken "x"; Good "b" 2; Good "a" 3] ∅ in
  errors_logged (Update self kFull 0%Z 0%Z).2 + size (data (Update self kFull 0%Z 0%Z).1.2)
  = 1 + 3.
Proof.
  intros self.
  exact (Update_reports_duplicates (sample_traits true) self kFull 0%Z 0%Z eq_refl).
Defined.

Lemma Update_keeps_cache_keyed_witness :
  let self := sample_state true [Good "a" 1; Good "b" 2; Good "a" 3] {["z" := ("z", 9)]} in
  well_keyed (data (Update self kIncremental 0%Z 0%Z).1.2).
Proof.
  intros self.
  apply (Update_keeps_cache_keyed (sample_traits true) self kIncremental 0%Z 0%Z eq_refl).
  right. intros k obj Hk. simpl in Hk.
  apply lookup_singleton_Some in Hk as [<- <-]. reflexivity.
Defined.
